(** * ddbcertstorage: a certificate store with folder semantics on a flat table

    A shallow embedding of the Go package [ddbcertstorage] (the record codec
    of [item.go] and the [Storage] methods) over an in-memory model of the
    key-value backend, and the properties of the specification checked
    against it. *)

From Stdlib Require Import ZArith Lia String Ascii List Bool.
From stdpp Require Import base option list strings gmap fin_maps.

Local Open Scope string_scope.
Local Open Scope Z_scope.

(** ** The pieces of the Go standard library the package calls *)

(** [strings]: Go strings are byte sequences, as Rocq's are. *)
Module GoStrings.

(** [strings.HasPrefix(s, p)]. *)
Fixpoint HasPrefix (s p : string) : bool :=
  match p, s with
  | EmptyString, _ => true
  | String c p', String d s' => if Ascii.eqb c d then HasPrefix s' p' else false
  | String _ _, EmptyString => false
  end.

Fixpoint drop (n : nat) (s : string) : string :=
  match n, s with
  | O, _ => s
  | S n', String _ s' => drop n' s'
  | S _, EmptyString => EmptyString
  end.

(** [strings.TrimPrefix(s, p)]: [s] without the leading [p], or [s] itself. *)
Definition TrimPrefix (s p : string) : string :=
  if HasPrefix s p then drop (String.length p) s else s.

(** [strings.Contains(s, sub)]. *)
Fixpoint Contains (s sub : string) : bool :=
  HasPrefix s sub ||
  match s with
  | EmptyString => false
  | String _ s' => Contains s' sub
  end.

(** [strings.Split(s, sep)] for a one-byte separator: the fields between
    the separators, one more than there are separators. *)
Fixpoint SplitByte (s : string) (sep : ascii) : list string :=
  match s with
  | EmptyString => [EmptyString]
  | String c s' =>
      if Ascii.eqb c sep then EmptyString :: SplitByte s' sep
      else match SplitByte s' sep with
           | f :: fs => String c f :: fs
           | [] => [String c EmptyString]
           end
  end.

(** [strings.Join(elems, sep)]. *)
Fixpoint Join (elems : list string) (sep : string) : string :=
  match elems with
  | [] => EmptyString
  | [e] => e
  | e :: es => e ++ sep ++ Join es sep
  end.

End GoStrings.

(** [strconv], base 10 and 64 bits only, which is all [item.go] asks for. *)
Module GoStrconv.

Definition minInt64 : Z := - 2 ^ 63.
Definition maxInt64 : Z := 2 ^ 63 - 1.

Inductive NumError := ErrSyntax | ErrRange.

Definition digitChar (d : Z) : ascii := ascii_of_nat (48 + Z.to_nat d).

Definition digitVal (c : ascii) : option Z :=
  let n := Z.of_nat (nat_of_ascii c) in
  if (48 <=? n) && (n <=? 57) then Some (n - 48) else None.

Fixpoint formatUint (fuel : nat) (n : Z) (acc : string) : string :=
  match fuel with
  | O => acc
  | S fuel' =>
      let acc' := String (digitChar (n mod 10)) acc in
      if n <? 10 then acc' else formatUint fuel' (n / 10) acc'
  end.

(** [strconv.FormatInt(i, 10)]; an int64 has at most 19 digits. *)
Definition FormatInt (i : Z) : string :=
  if i <? 0 then String "-" (formatUint 20 (- i) EmptyString)
  else formatUint 20 i EmptyString.

Fixpoint parseDigits (s : string) (acc : Z) : option Z :=
  match s with
  | EmptyString => Some acc
  | String c s' =>
      match digitVal c with
      | Some d => parseDigits s' (10 * acc + d)
      | None => None
      end
  end.

Definition parseUnsigned (s : string) : option Z :=
  match s with
  | EmptyString => None
  | _ => parseDigits s 0
  end.

(** [strconv.ParseInt(s, 10, 64)]: an optional sign, at least one digit,
    nothing else, and the value must fit an int64. As in Go, the value comes
    with the error: zero with a syntax error, the nearest bound with a range
    error. *)
Definition ParseInt (s : string) : Z * option NumError :=
  let '(neg, body) :=
    match s with
    | String "+" r => (false, r)
    | String "-" r => (true, r)
    | _ => (false, s)
    end in
  match parseUnsigned body with
  | None => (0, Some ErrSyntax)
  | Some un =>
      if negb neg && (maxInt64 <? un) then (maxInt64, Some ErrRange)
      else if neg && (- minInt64 <? un) then (minInt64, Some ErrRange)
      else (if neg then - un else un, None)
  end.

End GoStrconv.

(** [time]: an instant is its number of nanoseconds since
    January 1, year 1, 00:00:00 UTC (Go's zero [Time]); the model's clock
    runs in UTC. A [Duration] is a signed 64-bit count of nanoseconds. *)
Module GoTime.

Definition Time := Z.
Definition Duration := Z.

Definition Nanosecond : Duration := 1.
Definition Second : Duration := 1000000000.
Definition Minute : Duration := 60 * Second.

Definition IsZero (t : Time) : bool := t =? 0.

Definition Add (t : Time) (d : Duration) : Time := t + d.

(** [t.Sub(u)]: the difference, saturated to the range of a [Duration]. *)
Definition Sub (t u : Time) : Duration :=
  Z.max GoStrconv.minInt64 (Z.min GoStrconv.maxInt64 (t - u)).

Definition isLeap (y : Z) : bool :=
  (y mod 4 =? 0) && (negb (y mod 100 =? 0) || (y mod 400 =? 0)).

Definition daysIn (y m : Z) : Z :=
  if m =? 2 then (if isLeap y then 29 else 28)
  else if (m =? 4) || (m =? 6) || (m =? 9) || (m =? 11) then 30 else 31.

(** Days since 0001-01-01 of a date of the proleptic Gregorian calendar. *)
Definition daysFromCivil (y m d : Z) : Z :=
  let y' := if m <=? 2 then y - 1 else y in
  let era := y' / 400 in
  let yoe := y' - era * 400 in
  let mp := if 2 <? m then m - 3 else m + 9 in
  let doy := (153 * mp + 2) / 5 + d - 1 in
  let doe := yoe * 365 + yoe / 4 - yoe / 100 + doy in
  era * 146097 + doe - 306.

Definition civilFromDays (days : Z) : Z * Z * Z :=
  let z := days + 306 in
  let era := z / 146097 in
  let doe := z - era * 146097 in
  let yoe := (doe - doe / 1460 + doe / 36524 - doe / 146096) / 365 in
  let doy := doe - (365 * yoe + yoe / 4 - yoe / 100) in
  let mp := (5 * doy + 2) / 153 in
  let d := doy - (153 * mp + 2) / 5 + 1 in
  let m := if mp <? 10 then mp + 3 else mp - 9 in
  let y := yoe + era * 400 in
  (if m <=? 2 then y + 1 else y, m, d).

(** Decimal digits of [n], zero-padded to [width] places. *)
Fixpoint zeros (n : nat) : string :=
  match n with
  | O => EmptyString
  | S n' => String "0" (zeros n')
  end.

Definition pad (width : nat) (s : string) : string :=
  zeros (width - String.length s) ++ s.

Definition appendInt (n : Z) (width : nat) : string :=
  if n <? 0 then String "-" (pad width (GoStrconv.formatUint 20 (- n) ""))
  else pad width (GoStrconv.formatUint 20 n "").

(** [t.Format(time.RFC3339)] of a UTC instant: ["2006-01-02T15:04:05Z"]. *)
Definition FormatRFC3339 (t : Time) : string :=
  let secs := t / Second in
  let '(y, m, d) := civilFromDays (secs / 86400) in
  let sod := secs mod 86400 in
  appendInt y 4 ++ "-" ++ appendInt m 2 ++ "-" ++ appendInt d 2 ++ "T"
    ++ appendInt (sod / 3600) 2 ++ ":" ++ appendInt (sod mod 3600 / 60) 2
    ++ ":" ++ appendInt (sod mod 60) 2 ++ "Z".

Definition num2 (a b : ascii) : option Z :=
  x ← GoStrconv.digitVal a; y ← GoStrconv.digitVal b; Some (10 * x + y).

(** The fraction of a second after the point: its digits, of which the
    first nine count, and what follows them. *)
Fixpoint fracDigits (s : string) (scale acc : Z) : Z * string :=
  match s with
  | String c s' =>
      match GoStrconv.digitVal c with
      | Some d => fracDigits s' (scale / 10) (acc + d * scale)
      | None => (acc, s)
      end
  | EmptyString => (acc, s)
  end.

(** [getnum(s, fixed)]: one or two leading digits and the rest; both digits
    are demanded when [fixed]. *)
Definition getnum (s : string) (fixed : bool) : option (Z * string) :=
  match s with
  | String a r =>
      x ← GoStrconv.digitVal a;
      match r with
      | String b r' =>
          match GoStrconv.digitVal b with
          | Some y => Some (10 * x + y, r')
          | None => if fixed then None else Some (x, r)
          end
      | EmptyString => if fixed then None else Some (x, r)
      end
  | EmptyString => None
  end.

(** The year of the layout's [2006]: four digits. *)
Definition getyear (s : string) : option (Z * string) :=
  match s with
  | String a (String b (String c (String d r))) =>
      hi ← num2 a b; lo ← num2 c d; Some (100 * hi + lo, r)
  | _ => None
  end.

(** A byte of the layout that the value must show as it is. *)
Definition skip (c : ascii) (s : string) : option string :=
  match s with
  | String d r => if Ascii.eqb d c then Some r else None
  | EmptyString => None
  end.

Definition commaOrPeriod (c : ascii) : bool := Ascii.eqb c "." || Ascii.eqb c ",".

(** A fraction of a second, which the parser reads after the seconds
    although the layout has none: a point or a comma and at least one
    digit. Nanoseconds and the rest; the value as it is when no fraction
    is there. *)
Definition parseFraction (s : string) : Z * string :=
  match s with
  | String p (String c r) =>
      if commaOrPeriod p && bool_decide (is_Some (GoStrconv.digitVal c))
      then fracDigits (String c r) 100000000 0
      else (0, s)
  | _ => (0, s)
  end.

(** The zone of the layout's [Z07:00]: [Z], or a signed [hh:mm] with the
    hours up to 24 and the minutes up to 60; seconds east of UTC, and the
    rest. *)
Definition parseZone (s : string) : option (Z * string) :=
  match s with
  | String "Z" r => Some (0, r)
  | String sg (String h1 (String h2 (String c (String m1 (String m2 r))))) =>
      if Ascii.eqb c ":" then
        h ← num2 h1 h2; m ← num2 m1 m2;
        if (h <=? 24) && (m <=? 60) then
          if Ascii.eqb sg "+" then Some (h * 3600 + m * 60, r)
          else if Ascii.eqb sg "-" then Some (- (h * 3600 + m * 60), r)
          else None
        else None
      else None
  | _ => None
  end.

(** [time.Parse(time.RFC3339, s)], that is the layout
    ["2006-01-02T15:04:05Z07:00"] read as Go's parser reads it: the hour
    may have one digit, the other numbers have two, a fraction of a second
    may follow the seconds, nothing may follow the zone. [None] stands for
    the [*ParseError]. *)
Definition ParseRFC3339 (s : string) : option Time :=
  '(year, s) ← getyear s;
  s ← skip "-" s;
  '(month, s) ← getnum s true;
  s ← skip "-" s;
  '(day, s) ← getnum s true;
  s ← skip "T" s;
  '(hour, s) ← getnum s false;
  s ← skip ":" s;
  '(min, s) ← getnum s true;
  s ← skip ":" s;
  '(sec, s) ← getnum s true;
  let '(nsec, s) := parseFraction s in
  '(off, s) ← parseZone s;
  match s with
  | EmptyString =>
      if (1 <=? month) && (month <=? 12) && (1 <=? day) && (day <=? daysIn year month)
         && (hour <=? 23) && (min <=? 59) && (sec <=? 59)
      then Some ((daysFromCivil year month day * 86400 + hour * 3600 + min * 60 + sec
                  - off) * Second + nsec)
      else None
  | String _ _ => None
  end.

End GoTime.

Import GoStrings GoStrconv GoTime.

(** ** Attribute values and errors *)

(** [types.AttributeValue]: the members the package reads and writes, and
    one ([NULL]) to stand for the others. *)
Inductive AttributeValue :=
  | AttributeValueMemberS (Value : string)
  | AttributeValueMemberB (Value : list Byte.byte)
  | AttributeValueMemberN (Value : string)
  | AttributeValueMemberBOOL (Value : bool)
  | AttributeValueMemberNULL.

Abbreviation AttrMap := (gmap string AttributeValue).

(** The error values the package returns or passes on. *)
Inductive error :=
  | ErrNotExist                                      (* fs.ErrNotExist *)
  | ErrInvalidAttributeValue                         (* errors.New("invalid attribute value") *)
  | ErrInvalidLocked                                 (* errors.New("invalid Locked attribute") *)
  | ErrTimeParse (value : string)                    (* *time.ParseError *)
  | ErrStrconv (value : string) (e : NumError)       (* *strconv.NumError *)
  | ConditionalCheckFailedException (Item : AttrMap) (* the failed condition, with the item found *)
  | ErrContext                                       (* the context's error, as the client surfaces it *)
  | ErrBackend (code : string).                      (* any other error of the client *)

Inductive result (A : Type) :=
  | Ok (a : A)
  | Err (e : error).
Arguments Ok {A} a.
Arguments Err {A} e.

(** ** item.go: the record and its codec *)

Record Item := mkItem {
  Key : string;
  Contents : list Byte.byte;
  Modified : Time;
  Size : Z;
  IsTerminal : bool
}.

(** The zero value of [var item Item]. *)
Definition zeroItem : Item :=
  {| Key := ""; Contents := []; Modified := 0; Size := 0; IsTerminal := false |}.

(** Method [Item] of [Item]: the attribute map of a record. *)
Definition Item_Item (i : Item) : AttrMap :=
  let item : AttrMap := {[ "Key" := AttributeValueMemberS (Key i) ]} in
  let item :=
    if (0 <? length (Contents i))%nat
    then <[ "Contents" := AttributeValueMemberB (Contents i) ]> item else item in
  let item :=
    if negb (IsZero (Modified i))
    then <[ "Modified" := AttributeValueMemberS (FormatRFC3339 (Modified i)) ]> item
    else item in
  let item :=
    if 0 <? Size i
    then <[ "Size" := AttributeValueMemberN (FormatInt (Size i)) ]> item else item in
  let item :=
    if IsTerminal i
    then <[ "IsTerminal" := AttributeValueMemberBOOL (IsTerminal i) ]> item else item in
  item.

Definition setKey (i : Item) (v : string) : Item :=
  {| Key := v; Contents := Contents i; Modified := Modified i; Size := Size i;
     IsTerminal := IsTerminal i |}.
Definition setContents (i : Item) (v : list Byte.byte) : Item :=
  {| Key := Key i; Contents := v; Modified := Modified i; Size := Size i;
     IsTerminal := IsTerminal i |}.
Definition setModified (i : Item) (v : Time) : Item :=
  {| Key := Key i; Contents := Contents i; Modified := v; Size := Size i;
     IsTerminal := IsTerminal i |}.
Definition setSize (i : Item) (v : Z) : Item :=
  {| Key := Key i; Contents := Contents i; Modified := Modified i; Size := v;
     IsTerminal := IsTerminal i |}.
Definition setIsTerminal (i : Item) (v : bool) : Item :=
  {| Key := Key i; Contents := Contents i; Modified := Modified i; Size := Size i;
     IsTerminal := v |}.

(** Method [Load] of [Item]: fills the receiver from an attribute map, field by field,
    and stops at the first attribute that is absent, of another type or
    unparsable. The receiver as it is then, and the error (or [None]). *)
Definition Item_Load (i : Item) (item : AttrMap) : Item * option error :=
  match item !! "Key" with
  | Some (AttributeValueMemberS v) =>
    let i := setKey i v in
    match item !! "Contents" with
    | Some (AttributeValueMemberB v) =>
      let i := setContents i v in
      match item !! "Modified" with
      | Some (AttributeValueMemberS v) =>
        match ParseRFC3339 v with
        | None => (setModified i 0, Some (ErrTimeParse v))
        | Some t =>
          let i := setModified i t in
          match item !! "Size" with
          | Some (AttributeValueMemberN v) =>
            match ParseInt v with
            | (n, Some e) => (setSize i n, Some (ErrStrconv v e))
            | (n, None) =>
              let i := setSize i n in
              match item !! "IsTerminal" with
              | Some (AttributeValueMemberBOOL v) => (setIsTerminal i v, None)
              | _ => (i, Some ErrInvalidAttributeValue)
              end
            end
          | _ => (i, Some ErrInvalidAttributeValue)
          end
        end
      | _ => (i, Some ErrInvalidAttributeValue)
      end
    | _ => (i, Some ErrInvalidAttributeValue)
    end
  | _ => (i, Some ErrInvalidAttributeValue)
  end.

(** ** The backend

    One table whose hash key is the attribute [Key], behind a client whose
    requests take a context. A request made with a context that is done
    fails at once with the context's error and does nothing; a request may
    also fail with an error of the client ([faults] says which of the coming
    requests do); otherwise it runs on the table, to its end. Every request
    that is issued takes [latency] and is recorded in [trace] with the
    instant it was issued at, and so is every sleep.

    [itemOnFailure] tells one backend from another: whether a put whose
    condition fails hands the item it found over with the exception
    although the request does not ask for it. DynamoDB does not: it fills
    [ConditionalCheckFailedException.Item] only for a request that sets
    [ReturnValuesOnConditionCheckFailure], which no request of the package
    does. *)

Inductive Event :=
  | EvPutItem (key : string)
  | EvPutItemIfAbsent (key : string)
  | EvGetItem (key : string)
  | EvDeleteItem (key : string)
  | EvScan (prefix : string)
  | EvSleep (d : Duration).

Record World := mkWorld {
  table : gmap string AttrMap;
  itemOnFailure : bool;
  clock : Time;
  latency : Duration;
  faults : list (option string);
  trace : list (Time * Event)
}.

(** A [context.Context]: cancelled from the instant [deadline] on. *)
Record Context := mkContext { deadline : option Time }.

Definition Background : Context := {| deadline := None |}.

Definition ctxDone (ctx : Context) (t : Time) : bool :=
  match deadline ctx with
  | Some d => d <=? t
  | None => false
  end.

(** Computations on the world that return a value or an error. *)
Definition M (A : Type) : Type := World -> result A * World.

Definition ret {A} (a : A) : M A := fun w => (Ok a, w).

Definition bind {A B} (m : M A) (k : A -> M B) : M B :=
  fun w => match m w with
           | (Ok a, w') => k a w'
           | (Err e, w') => (Err e, w')
           end.

Definition fail {A} (e : error) : M A := fun w => (Err e, w).

Declare Scope go_scope.
Delimit Scope go_scope with go.
Notation "'let!' x ':=' m 'in' k" := (bind m (fun x => k))
  (at level 10, x pattern, m at level 100, k at level 200) : go_scope.
Notation "'run!' m 'in' k" := (bind m (fun _ => k))
  (at level 10, m at level 100, k at level 200) : go_scope.

(** [time.Now()]. *)
Definition Now : M Time := fun w => (Ok (clock w), w).

(** [time.Sleep(d)]: takes no context. *)
Definition Sleep (d : Duration) : M unit :=
  fun w => (Ok tt, {| table := table w; itemOnFailure := itemOnFailure w;
                      clock := Add (clock w) d; latency := latency w;
                      faults := faults w; trace := trace w ++ [(clock w, EvSleep d)] |}).

(** The world once a request has run: [t] is the table it leaves. *)
Definition advance (w : World) (ev : Event) (t : gmap string AttrMap) : World :=
  {| table := t; itemOnFailure := itemOnFailure w;
     clock := Add (clock w) (latency w); latency := latency w;
     faults := tail (faults w); trace := trace w ++ [(clock w, ev)] |}.

Definition nextFault (w : World) : option string :=
  match faults w with
  | Some code :: _ => Some code
  | _ => None
  end.

Definition request {A} (ctx : Context) (ev : Event)
    (op : gmap string AttrMap -> result A * gmap string AttrMap) : M A :=
  fun w =>
    if ctxDone ctx (clock w) then (Err ErrContext, w)
    else
      match nextFault w with
      | Some code => (Err (ErrBackend code), advance w ev (table w))
      | None => let '(r, t) := op (table w) in (r, advance w ev t)
      end.

Definition keyOf (item : AttrMap) : option string :=
  match item !! "Key" with
  | Some (AttributeValueMemberS k) => Some k
  | _ => None
  end.

(** [PutItem]: unconditional upsert of the item at its key. *)
Definition PutItem (ctx : Context) (item : AttrMap) : M unit :=
  match keyOf item with
  | Some k => request ctx (EvPutItem k) (fun t => (Ok tt, <[ k := item ]> t))
  | None => request ctx (EvPutItem "") (fun t => (Err (ErrBackend "ValidationException"), t))
  end.

(** [PutItem] as [Lock] asks for it: under the condition
    [attribute_not_exists(Key)] and with [ReturnValuesOnConditionCheckFailure]
    left unset. When an item is there the put fails with the exception,
    which carries the item found only on a backend that hands it over
    unasked, and no attribute otherwise. *)
Definition PutItemIfAbsent (ctx : Context) (item : AttrMap) : M unit :=
  fun w =>
    match keyOf item with
    | Some k =>
        request ctx (EvPutItemIfAbsent k)
          (fun t => match t !! k with
                    | Some old =>
                        (Err (ConditionalCheckFailedException
                                (if itemOnFailure w then old else ∅)), t)
                    | None => (Ok tt, <[ k := item ]> t)
                    end) w
    | None => request ctx (EvPutItemIfAbsent "")
                (fun t => (Err (ErrBackend "ValidationException"), t)) w
    end.

(** [GetItem], consistent read: the item, or no attributes at all. *)
Definition GetItem (ctx : Context) (key : string) : M AttrMap :=
  request ctx (EvGetItem key) (fun t => (Ok (default ∅ (t !! key)), t)).

(** [DeleteItem]: removes the item and answers its old attributes
    (what [ReturnValues: ALL_OLD] asks for), none when there was no item. *)
Definition DeleteItem (ctx : Context) (key : string) : M AttrMap :=
  request ctx (EvDeleteItem key) (fun t => (Ok (default ∅ (t !! key)), delete key t)).

Definition beginsWith (prefix : string) (item : AttrMap) : bool :=
  match keyOf item with
  | Some k => HasPrefix k prefix
  | None => false
  end.

(** [Scan] with the filter [begins_with(Key, prefix)], in one page; the
    items come in the order in which the table enumerates them. *)
Definition Scan (ctx : Context) (prefix : string) : M (list AttrMap) :=
  request ctx (EvScan prefix)
    (fun t => (Ok (List.filter (beginsWith prefix) (snd <$> map_to_list t)), t)).

(** ** The [Storage] methods

    A [Storage] value is a table name and a client; the world above is what
    the client talks to. *)

(** [certmagic.KeyInfo]. *)
Module certmagic.
Record KeyInfo := mkKeyInfo {
  Key : string;
  Modified : Time;
  IsTerminal : bool;
  Size : Z
}.
End certmagic.

Local Open Scope go_scope.

(** The loop of [Store] over [i := 0; i < len(keyParts)-1; i++]. *)
Fixpoint storeMarkers (ctx : Context) (keyParts : list string) (idx : list nat) : M unit :=
  match idx with
  | [] => ret tt
  | i :: idx' =>
      let! now := Now in
      let item := {| Key := Join (take (i + 1) keyParts) "/"; Contents := [];
                     Modified := now; Size := 0; IsTerminal := false |} in
      run! PutItem ctx (Item_Item item) in
      storeMarkers ctx keyParts idx'
  end.

(** [Store] puts [value] at [key], after a marker for each proper prefix.
    [int64(len(value))] cannot wrap: a slice is shorter than [2^63]. *)
Definition Store (ctx : Context) (key : string) (value : list Byte.byte) : M unit :=
  let keyParts := SplitByte key "/" in
  run! storeMarkers ctx keyParts (seq 0 (length keyParts - 1)) in
  let! now := Now in
  let item := {| Key := key; Contents := value; Modified := now;
                 Size := Z.of_nat (length value); IsTerminal := true |} in
  PutItem ctx (Item_Item item).

(** [Load] retrieves the value at [key]. *)
Definition Load (ctx : Context) (key : string) : M (list Byte.byte) :=
  let! output := GetItem ctx key in
  if (size output =? 0)%nat then fail ErrNotExist
  else match Item_Load zeroItem output with
       | (_, Some err) => fail err
       | (item, None) => ret (Contents item)
       end.

(** The sweep of [Delete] over the scanned items. *)
Fixpoint deleteItems (ctx : Context) (items : list AttrMap) : M unit :=
  match items with
  | [] => ret tt
  | i :: items' =>
      run! match keyOf i with
           | Some k => DeleteItem ctx k
           | None => request ctx (EvDeleteItem "")
                       (fun t => (Err (ErrBackend "ValidationException"), t))
           end in
      deleteItems ctx items'
  end.

(** [Delete] deletes [key] and, when the deleted record is not terminal,
    every key that begins with [key + "/"]. *)
Definition Delete (ctx : Context) (key : string) : M unit :=
  let! output := DeleteItem ctx key in
  if (size output =? 0)%nat then ret tt
  else match Item_Load zeroItem output with
       | (_, Some err) => fail err
       | (item, None) =>
           if negb (IsTerminal item) then
             let! items := Scan ctx (key ++ "/") in
             if (length items =? 0)%nat then fail ErrNotExist
             else deleteItems ctx items
           else ret tt
       end.

(** [Exists]: [err == nil && len(output.Item) > 0]. *)
Definition Exists (ctx : Context) (key : string) (w : World) : bool * World :=
  match GetItem ctx key w with
  | (Ok output, w') => ((0 <? size output)%nat, w')
  | (Err _, w') => (false, w')
  end.

(** The loop of [List] over the scanned items, appending to [keys]. *)
Fixpoint listItems (path : string) (recursive : bool) (items : list AttrMap)
    (keys : list string) : result (list string) :=
  match items with
  | [] => Ok keys
  | i :: items' =>
      match Item_Load zeroItem i with
      | (_, Some err) => Err err
      | (item, None) =>
          if negb recursive && Contains (TrimPrefix (Key item) (path ++ "/")) "/"
          then listItems path recursive items' keys
          else listItems path recursive items' (keys ++ [Key item])
      end
  end.

(** [List] returns the keys in [path]. *)
Definition List (ctx : Context) (path : string) (recursive : bool) : M (list string) :=
  let! items := Scan ctx (path ++ "/") in
  if (length items =? 0)%nat then fail ErrNotExist
  else fun w => (listItems path recursive items [], w).

(** [Stat] returns information about [key]. *)
Definition Stat (ctx : Context) (key : string) : M certmagic.KeyInfo :=
  let! output := GetItem ctx key in
  if (size output =? 0)%nat then fail ErrNotExist
  else match Item_Load zeroItem output with
       | (_, Some err) => fail err
       | (item, None) =>
           ret {| certmagic.Key := Key item; certmagic.Modified := Modified item;
                  certmagic.IsTerminal := IsTerminal item; certmagic.Size := Size item |}
       end.

(** [fmt.Sprintf("LOCK-%s", name)]. *)
Definition lockKey (name : string) : string := "LOCK-" ++ name.

Definition deleteLock (ctx : Context) (name : string) : M unit :=
  run! DeleteItem ctx (lockKey name) in ret tt.

(** [Unlock] releases the named lock. *)
Definition Unlock (ctx : Context) (name : string) : M unit := deleteLock ctx name.

(** The lock record [Lock] tries to put: its key and the time of the attempt. *)
Definition lockItem (name : string) (now : Time) : AttrMap :=
  <[ "Locked" := AttributeValueMemberS (FormatRFC3339 now) ]>
    {[ "Key" := AttributeValueMemberS (lockKey name) ]}.

(** What one turn of the loop of [Lock] ends in. *)
Inductive LockTurn :=
  | Return (err : option error)   (* [return err], [return nil] *)
  | Continue.                     (* [continue] *)

(** The body of the [for] loop of [Lock]. *)
Definition lockTurn (ctx : Context) (name : string) (w : World) : LockTurn * World :=
  match PutItemIfAbsent ctx (lockItem name (clock w)) w with
  | (Err (ConditionalCheckFailedException found), w1) =>
      match found !! "Locked" with
      | Some (AttributeValueMemberS str) =>
          match ParseRFC3339 str with
          | None => (Return (Some (ErrTimeParse str)), w1)
          | Some locked =>
              if Minute <? Sub (clock w1) locked then
                match deleteLock ctx name w1 with
                | (Err err, w2) => (Return (Some err), w2)
                | (Ok _, w2) => (Continue, w2)
                end
              else
                let '(_, w2) := Sleep Second w1 in (Continue, w2)
          end
      | _ => (Return (Some ErrInvalidLocked), w1)
      end
  | (Err err, w1) => (Return (Some err), w1)
  | (Ok _, w1) => (Return None, w1)
  end.

(** [Lock]: the loop, run for at most [fuel] turns; [None] when the loop is
    still going after them. *)
Fixpoint Lock (fuel : nat) (ctx : Context) (name : string) (w : World)
    : option (option error) * World :=
  match fuel with
  | O => (None, w)
  | S fuel' =>
      match lockTurn ctx name w with
      | (Return err, w') => (Some err, w')
      | (Continue, w') => Lock fuel' ctx name w'
      end
  end.

(** ** Vocabulary of the properties *)

(** No request to come fails with an error of the client. *)
Definition quiet (w : World) : Prop := faults w = [].

(** The next request made with [ctx] reaches the table. *)
Definition runs (ctx : Context) (w : World) : Prop :=
  ctxDone ctx (clock w) = false /\ nextFault w = None.

(** The errors of decoding a stored record. *)
Definition decodeError (e : error) : Prop :=
  e = ErrInvalidAttributeValue \/ (exists v, e = ErrTimeParse v)
  \/ (exists v k, e = ErrStrconv v k).

(** A record stored without one of the attributes the encoder leaves out
    when the field is empty, zero or false. *)
Definition sparse (item : AttrMap) : Prop :=
  item !! "Contents" = None \/ item !! "Size" = None \/ item !! "IsTerminal" = None.

(** [s] has no byte [sep]. *)
Fixpoint noByte (sep : ascii) (s : string) : bool :=
  match s with
  | EmptyString => true
  | String c s' => negb (Ascii.eqb c sep) && noByte sep s'
  end.

(** The keys [Store] puts a record at: the proper prefixes of [key], in the
    order of its loop, and [key]. *)
Definition storeKeys (key : string) : list string :=
  let keyParts := SplitByte key "/" in
  (List.map (fun i => Join (take (i + 1) keyParts) "/") (seq 0 (length keyParts - 1))
   ++ [key])%list.

(** Histories of the path space: calls of [Store] and [Delete], each with
    its context, run one after the other whatever they return. *)
Inductive Op :=
  | OpStore (ctx : Context) (key : string) (value : list Byte.byte)
  | OpDelete (ctx : Context) (key : string).

Definition runOp (w : World) (op : Op) : World :=
  match op with
  | OpStore ctx key value => snd (Store ctx key value w)
  | OpDelete ctx key => snd (Delete ctx key w)
  end.

Definition runOps (ops : list Op) (w : World) : World := fold_left runOp ops w.

(** The keys a history has written. *)
Definition written (ops : list Op) : list string :=
  flat_map (fun op => match op with
                      | OpStore _ key _ => storeKeys key
                      | OpDelete _ _ => []
                      end) ops.

(** Every record of the table sits at the key it carries, and that key is
    one of [keys]. *)
Definition keysWithin (keys : list string) (t : gmap string AttrMap) : Prop :=
  forall k item, t !! k = Some item -> keyOf item = Some k /\ In k keys.

(** A computation that keeps a property of the table. *)
Definition keeps {A} (P : gmap string AttrMap -> Prop) (m : M A) : Prop :=
  forall w, P (table w) -> P (table (snd (m w))).

(** A world to run examples in: an empty table on a backend that fills the
    exception of a failed condition only when asked, the clock at
    2023-11-14T22:13:20Z, requests that take a millisecond, no fault. *)
Definition world0 : World :=
  {| table := ∅; itemOnFailure := false; clock := 63835596800000000000;
     latency := 1000000; faults := []; trace := [] |}.

(** The table once ["a/b/c"] has been stored in [world0]. *)
Definition world1 : World :=
  snd (Store Background "a/b/c" [Byte.x2d; Byte.x2d] world0).

(** A world in which the lock ["renew"] has been held for [age], on a
    backend that hands the record over with the failed condition. *)
Definition heldWorld (age : Duration) : World :=
  {| table := {[ lockKey "renew" := lockItem "renew" (clock world0 - age) ]};
     itemOnFailure := true;
     clock := clock world0; latency := latency world0; faults := []; trace := [] |}.

(** The same on a backend that fills the exception only when asked. *)
Definition heldWorldUnasked (age : Duration) : World :=
  {| table := {[ lockKey "renew" := lockItem "renew" (clock world0 - age) ]};
     itemOnFailure := false;
     clock := clock world0; latency := latency world0; faults := []; trace := [] |}.

(** A context that is done a millisecond after the clock of [world0]. *)
Definition shortContext : Context := {| deadline := Some (clock world0 + 1000000) |}.





(** A history for examples: two stores and, between them, a delete. *)
Definition history0 : list Op :=
  [ OpStore Background "a/b/c" [Byte.x2d; Byte.x2d];
    OpDelete Background "a";
    OpStore Background "foo/cert/key" [Byte.x6b] ].

(** ** Vocabulary of the further properties *)

(** The keys of the markers of [key]: its proper prefixes, shortest first. *)
Definition properPrefixes (key : string) : list string :=
  let keyParts := SplitByte key "/" in
  List.map (fun i => Join (take (i + 1) keyParts) "/") (seq 0 (length keyParts - 1)).

(** The record [Store] builds for a marker, and the one for the value. *)
Definition marker (key : string) (modified : Time) : Item :=
  {| Key := key; Contents := []; Modified := modified; Size := 0; IsTerminal := false |}.

Definition terminal (key : string) (value : list Byte.byte) (modified : Time) : Item :=
  {| Key := key; Contents := value; Modified := modified;
     Size := Z.of_nat (length value); IsTerminal := true |}.

Definition markerAt (k : string) (t : gmap string AttrMap) : Prop :=
  exists modified, t !! k = Some (Item_Item (marker k modified)).

(** Whenever a key is stored, so is every key it goes through. *)
Definition prefixClosed (t : gmap string AttrMap) : Prop :=
  forall k p, is_Some (t !! k) -> HasPrefix k (p ++ "/") = true -> is_Some (t !! p).

(** The keys [List] lets through: all of them, or those with no slash
    after the path. *)
Definition listed (path : string) (recursive : bool) (k : string) : bool :=
  recursive || negb (Contains (TrimPrefix k (path ++ "/")) "/").

Definition decodes (item : AttrMap) : Prop := snd (Item_Load zeroItem item) = None.

(** The key a decoded record carries. *)
Definition decodedKey (item : AttrMap) : string := Key (fst (Item_Load zeroItem item)).

(** Two files stored under ["site"] in [world0]. *)
Definition world2 : World :=
  snd (Store Background "site/key" [Byte.x6b]
         (snd (Store Background "site/cert" [Byte.x63] world0))).

(** The items a scan for [prefix] finds in a table. *)
Definition scanned (prefix : string) (t : gmap string AttrMap) : list AttrMap :=
  List.filter (beginsWith prefix) (snd <$> map_to_list t).

(** Every record of the table is the attribute map of some [Item]. *)
Definition allEncoded (t : gmap string AttrMap) : Prop :=
  forall k item, t !! k = Some item -> exists r, item = Item_Item r.

(** The errors [Lock] can return. *)
Definition lockError (e : error) : Prop :=
  e = ErrContext \/ (exists code, e = ErrBackend code)
  \/ e = ErrInvalidLocked \/ (exists str, e = ErrTimeParse str).


(** * Properties *)

(** ** The codec *)

Section Codec.

Variable i : Item.

Lemma Item_Item_Key :
  Item_Item i !! "Key" = Some (AttributeValueMemberS (Key i)).
Proof. unfold Item_Item. repeat case_match; by simplify_map_eq. Qed.

Lemma Item_Item_Contents :
  Item_Item i !! "Contents" =
    if (0 <? length (Contents i))%nat
    then Some (AttributeValueMemberB (Contents i)) else None.
Proof. unfold Item_Item. repeat case_match; by simplify_map_eq. Qed.

Lemma Item_Item_Modified :
  Item_Item i !! "Modified" =
    if negb (IsZero (Modified i))
    then Some (AttributeValueMemberS (FormatRFC3339 (Modified i))) else None.
Proof. unfold Item_Item. repeat case_match; by simplify_map_eq. Qed.

Lemma Item_Item_Size :
  Item_Item i !! "Size" =
    if 0 <? Size i then Some (AttributeValueMemberN (FormatInt (Size i))) else None.
Proof. unfold Item_Item. repeat case_match; by simplify_map_eq. Qed.

Lemma Item_Item_IsTerminal :
  Item_Item i !! "IsTerminal" =
    if IsTerminal i then Some (AttributeValueMemberBOOL true) else None.
Proof. unfold Item_Item. repeat case_match; by simplify_map_eq. Qed.

Lemma keyOf_Item_Item : keyOf (Item_Item i) = Some (Key i).
Proof. unfold keyOf. by rewrite Item_Item_Key. Qed.

Lemma Item_Item_nonempty : (size (Item_Item i) =? 0)%nat = false.
Proof.
  apply Nat.eqb_neq. intros Hz. apply map_size_empty_iff in Hz.
  pose proof Item_Item_Key as Hk. rewrite Hz in Hk. by rewrite lookup_empty in Hk.
Qed.

End Codec.

(** *** Decimal numbers: what [FormatInt] writes, [ParseInt] reads back *)

Lemma digitVal_digitChar d : 0 <= d <= 9 -> digitVal (digitChar d) = Some d.
Proof.
  intros Hd.
  assert (Hc : d = 0 \/ d = 1 \/ d = 2 \/ d = 3 \/ d = 4 \/ d = 5 \/ d = 6
               \/ d = 7 \/ d = 8 \/ d = 9) by lia.
  repeat (destruct Hc as [-> | Hc]; [reflexivity |]). by subst.
Qed.

Lemma digitChar_not_sign d :
  0 <= d <= 9 -> digitChar d <> "+"%char /\ digitChar d <> "-"%char.
Proof.
  intros Hd.
  assert (Hc : d = 0 \/ d = 1 \/ d = 2 \/ d = 3 \/ d = 4 \/ d = 5 \/ d = 6
               \/ d = 7 \/ d = 8 \/ d = 9) by lia.
  repeat (destruct Hc as [-> | Hc]; [by split |]). by subst.
Qed.

Lemma parseDigits_formatUint fuel :
  forall n acc, 0 <= n < 10 ^ Z.of_nat fuel ->
  exists k, 0 <= k /\
    forall a, parseDigits (formatUint fuel n acc) a = parseDigits acc (a * 10 ^ k + n).
Proof.
  induction fuel as [| fuel IH]; intros n acc Hn.
  - exists 0. split; [lia |]. intros a. simpl. f_equal. change (10 ^ Z.of_nat 0) with 1 in Hn. lia.
  - cbn [formatUint]. destruct (Z.ltb_spec n 10) as [Hlt | Hge].
    + exists 1. split; [lia |]. intros a. cbn [parseDigits].
      rewrite Z.mod_small by lia. rewrite digitVal_digitChar by lia.
      f_equal. lia.
    + destruct (IH (n / 10) (String (digitChar (n mod 10)) acc)) as (k & Hk & Hp).
      { split; [apply Z.div_pos; lia |].
        apply Z.div_lt_upper_bound; [lia |].
        replace (Z.of_nat (S fuel)) with (1 + Z.of_nat fuel) in Hn by lia.
        rewrite Z.pow_add_r in Hn by lia. lia. }
      exists (k + 1). split; [lia |]. intros a. rewrite Hp. cbn [parseDigits].
      rewrite digitVal_digitChar by (pose proof (Z.mod_pos_bound n 10); lia).
      f_equal. rewrite Z.pow_add_r by lia.
      pose proof (Z.div_mod n 10). lia.
Qed.

Lemma formatUint_head fuel :
  forall n d acc, 0 <= n -> 0 <= d <= 9 ->
  exists d' r, 0 <= d' <= 9 /\
    formatUint fuel n (String (digitChar d) acc) = String (digitChar d') r.
Proof.
  induction fuel as [| fuel IH]; intros n d acc Hn Hd.
  - by exists d, acc.
  - cbn [formatUint]. pose proof (Z.mod_pos_bound n 10).
    destruct (n <? 10).
    + exists (n mod 10). eexists. split; [lia | done].
    + apply IH; [apply Z.div_pos |]; lia.
Qed.

Lemma formatUint_head0 fuel n acc :
  0 <= n ->
  exists d r, 0 <= d <= 9 /\ formatUint (S fuel) n acc = String (digitChar d) r.
Proof.
  intros Hn. cbn [formatUint]. pose proof (Z.mod_pos_bound n 10).
  destruct (n <? 10).
  - exists (n mod 10). eexists. split; [lia | done].
  - apply formatUint_head; [apply Z.div_pos |]; lia.
Qed.

(** An int64 that is not negative comes back from its decimal form. *)
Lemma ParseInt_FormatInt n : 0 <= n <= maxInt64 -> ParseInt (FormatInt n) = (n, None).
Proof.
  intros Hn. unfold FormatInt. replace (n <? 0) with false by (symmetry; apply Z.ltb_ge; lia).
  assert (Hb : 0 <= n < 10 ^ Z.of_nat 20) by (unfold maxInt64 in Hn; simpl; lia).
  destruct (parseDigits_formatUint 20 n "" Hb) as (k & _ & Hp).
  destruct (formatUint_head0 19 n "") as (d & r & Hd & Hr); [lia |].
  unfold ParseInt, parseUnsigned. specialize (Hp 0). rewrite Hr in *.
  destruct (digitChar_not_sign d Hd) as [Hplus Hminus].
  destruct (digitChar d) as [[] [] [] [] [] [] [] []] eqn:Hc; try done;
    rewrite Hp; cbn [parseDigits]; replace (0 * 10 ^ k + n) with n by lia;
    cbn [negb andb]; by replace (maxInt64 <? n) with false by (symmetry; apply Z.ltb_ge; lia).
Qed.

(** *** Decoding *)

Lemma Item_Load_error i0 item e :
  snd (Item_Load i0 item) = Some e -> decodeError e.
Proof.
  unfold Item_Load, decodeError. intros H.
  repeat case_match; simpl in H; simplify_eq; eauto.
Qed.

Lemma Item_Load_no_Contents i0 item :
  item !! "Contents" = None -> snd (Item_Load i0 item) = Some ErrInvalidAttributeValue.
Proof. unfold Item_Load. intros ->. by repeat case_match. Qed.

Lemma Item_Load_sparse i0 item :
  sparse item -> exists e, snd (Item_Load i0 item) = Some e /\ decodeError e.
Proof.
  intros Hs.
  assert (He : exists e, snd (Item_Load i0 item) = Some e).
  { unfold Item_Load. destruct Hs as [H | [H | H]]; rewrite ?H;
      repeat case_match; simpl; eauto; congruence. }
  destruct He as [e He]. exists e. split; [done |]. by eapply Item_Load_error.
Qed.

(** A record with contents, a time, a positive size and the terminal flag
    comes back from its attribute map, its time as the timestamp reads. *)
Lemma Item_Load_Item_Item_dense (r : Item) (t : Time) :
  Contents r <> [] ->
  IsZero (Modified r) = false ->
  ParseRFC3339 (FormatRFC3339 (Modified r)) = Some t ->
  0 < Size r <= maxInt64 ->
  IsTerminal r = true ->
  Item_Load zeroItem (Item_Item r) = (setModified r t, None).
Proof.
  intros Hc Hz Hp Hs Ht. unfold Item_Load.
  rewrite Item_Item_Key, Item_Item_Contents, Item_Item_Modified, Item_Item_Size,
    Item_Item_IsTerminal.
  destruct (Contents r) as [| b bs] eqn:Hcr; [done |]. cbn [length Nat.ltb Nat.leb].
  rewrite Hz. cbn [negb]. rewrite Hp.
  replace (0 <? Size r) with true by (symmetry; apply Z.ltb_lt; lia).
  rewrite ParseInt_FormatInt by lia. rewrite Ht.
  destruct r; simpl in *; subst. reflexivity.
Qed.

(** C2, at the records the encoder writes sparsely: whatever its key, time,
    size and terminal flag, a record with empty contents (every directory
    marker is one) is encoded without [Contents], and decoding that
    attribute map fails with "invalid attribute value". *)
Theorem codec_rejects_empty_contents key modified size isTerminal :
  snd (Item_Load zeroItem
         (Item_Item {| Key := key; Contents := []; Modified := modified;
                       Size := size; IsTerminal := isTerminal |}))
  = Some ErrInvalidAttributeValue.
Proof. apply Item_Load_no_Contents. by rewrite Item_Item_Contents. Qed.

(** ** The backend *)

Lemma quiet_runs w : quiet w -> runs Background w.
Proof. unfold quiet, runs, nextFault. intros ->. done. Qed.

Lemma quiet_advance w ev t : quiet w -> quiet (advance w ev t).
Proof. unfold quiet. simpl. by intros ->. Qed.

Section Requests.

Context {A : Type}.
Variables (ctx : Context) (ev : Event).
Variable op : gmap string AttrMap -> result A * gmap string AttrMap.

Lemma request_runs w :
  runs ctx w ->
  request ctx ev op w = (fst (op (table w)), advance w ev (snd (op (table w)))).
Proof. intros [Hc Hf]. unfold request. rewrite Hc, Hf. by destruct (op (table w)). Qed.

(** A request fails with the context's error, an error of the client, or
    what the operation itself answers. *)
Lemma request_error w e :
  fst (request ctx ev op w) = Err e ->
  e = ErrContext \/ (exists code, e = ErrBackend code)
  \/ fst (op (table w)) = Err e.
Proof.
  unfold request. destruct (ctxDone ctx (clock w)); simpl.
  - intros [= <-]. by left.
  - destruct (nextFault w); simpl.
    + intros [= <-]. right. left. eauto.
    + destruct (op (table w)); simpl. by intros ->; right; right.
Qed.

End Requests.

Lemma PutItem_runs ctx item k w :
  keyOf item = Some k -> runs ctx w ->
  PutItem ctx item w = (Ok tt, advance w (EvPutItem k) (<[ k := item ]> (table w))).
Proof. intros Hk Hr. unfold PutItem. rewrite Hk. by rewrite request_runs. Qed.

Lemma GetItem_runs ctx key w :
  runs ctx w ->
  GetItem ctx key w
  = (Ok (default ∅ (table w !! key)), advance w (EvGetItem key) (table w)).
Proof. intros Hr. unfold GetItem. by rewrite request_runs. Qed.

Lemma DeleteItem_runs ctx key w :
  runs ctx w ->
  DeleteItem ctx key w
  = (Ok (default ∅ (table w !! key)), advance w (EvDeleteItem key) (delete key (table w))).
Proof. intros Hr. unfold DeleteItem. by rewrite request_runs. Qed.

Lemma Scan_runs ctx prefix w :
  runs ctx w ->
  Scan ctx prefix w
  = (Ok (List.filter (beginsWith prefix) (snd <$> map_to_list (table w))),
     advance w (EvScan prefix) (table w)).
Proof. intros Hr. unfold Scan. by rewrite request_runs. Qed.

(** ** [Store] *)

(** The world a marker is put in, and the one the put leaves. *)
Lemma storeMarkers_cons keyParts i idx w :
  quiet w ->
  storeMarkers Background keyParts (i :: idx) w
  = storeMarkers Background keyParts idx
      (advance w (EvPutItem (Join (take (i + 1) keyParts) "/"))
         (<[ Join (take (i + 1) keyParts) "/" :=
               Item_Item {| Key := Join (take (i + 1) keyParts) "/"; Contents := [];
                            Modified := clock w; Size := 0; IsTerminal := false |} ]>
            (table w))).
Proof.
  intros Hq. cbn [storeMarkers]. unfold bind at 1. cbn [Now]. unfold bind at 1.
  erewrite PutItem_runs; [done | apply keyOf_Item_Item | by apply quiet_runs].
Qed.

(** Once the markers are put, [Store] puts the terminal record. *)
Lemma Store_after_markers key value w w1 :
  storeMarkers Background (SplitByte key "/")
    (seq 0 (length (SplitByte key "/") - 1)) w = (Ok tt, w1) ->
  quiet w1 ->
  Store Background key value w
  = (Ok tt,
     advance w1 (EvPutItem key)
       (<[ key := Item_Item {| Key := key; Contents := value; Modified := clock w1;
                               Size := Z.of_nat (length value); IsTerminal := true |} ]>
          (table w1))).
Proof.
  intros Hm Hq. unfold Store. unfold bind at 1. rewrite Hm. unfold bind at 1. cbn [Now].
  erewrite PutItem_runs; [done | apply keyOf_Item_Item | by apply quiet_runs].
Qed.

(** The record a marker is stored as. *)
Lemma marker_undecodable key modified :
  Item_Load zeroItem
    (Item_Item {| Key := key; Contents := []; Modified := modified; Size := 0;
                  IsTerminal := false |})
  = (setKey zeroItem key, Some ErrInvalidAttributeValue).
Proof.
  unfold Item_Load. by rewrite Item_Item_Key, Item_Item_Contents.
Qed.

(** Where [Store] of a three-part key leaves the table. *)
Lemma Store_three a b c value w :
  quiet w ->
  SplitByte (a ++ "/" ++ b ++ "/" ++ c) "/" = [a; b; c] ->
  exists t1 t2 w1,
    Store Background (a ++ "/" ++ b ++ "/" ++ c) value w = (Ok tt, w1)
    /\ quiet w1
    /\ table w1 =
         <[ a ++ "/" ++ b ++ "/" ++ c :=
              Item_Item {| Key := a ++ "/" ++ b ++ "/" ++ c; Contents := value;
                           Modified := clock w + 2 * latency w;
                           Size := Z.of_nat (length value); IsTerminal := true |} ]>
           (<[ a ++ "/" ++ b :=
                 Item_Item {| Key := a ++ "/" ++ b; Contents := []; Modified := t2;
                              Size := 0; IsTerminal := false |} ]>
              (<[ a := Item_Item {| Key := a; Contents := []; Modified := t1;
                                    Size := 0; IsTerminal := false |} ]> (table w))).
Proof.
  intros Hq Hs.
  erewrite Store_after_markers; cycle 1.
  - rewrite Hs. cbn [length Nat.sub seq].
    rewrite storeMarkers_cons by done.
    rewrite storeMarkers_cons by by apply quiet_advance.
    cbn [storeMarkers ret]. reflexivity.
  - by do 2 apply quiet_advance.
  - do 3 eexists. split; [reflexivity |]. split; [by do 3 apply quiet_advance |].
    cbn [advance table clock latency Nat.add take Join]. unfold Add.
    replace (clock w + latency w + latency w) with (clock w + 2 * latency w) by lia.
    reflexivity.
Qed.

(** With no fault to come the loop of [Store] runs to its end, one request
    a marker. *)
Lemma storeMarkers_quiet keyParts idx :
  forall w, quiet w ->
  exists w1, storeMarkers Background keyParts idx w = (Ok tt, w1) /\ quiet w1
    /\ latency w1 = latency w
    /\ clock w1 = clock w + Z.of_nat (length idx) * latency w.
Proof.
  induction idx as [| i idx IH]; intros w Hq.
  - exists w. cbn [length]. repeat split; [done | lia].
  - rewrite storeMarkers_cons by done.
    edestruct IH as (w1 & -> & Hq1 & Hl & Hc); [by eapply quiet_advance |].
    exists w1. repeat split; [done | done |].
    rewrite Hc. cbn [advance clock latency length]. unfold Add. lia.
Qed.

(** With no fault to come, [Store] succeeds, and its last request puts the
    terminal record at [key]. *)
Lemma Store_quiet key value w :
  quiet w ->
  exists w1, quiet w1 /\
    clock w1 = clock w + Z.of_nat (length (SplitByte key "/") - 1) * latency w /\
    Store Background key value w
    = (Ok tt,
       advance w1 (EvPutItem key)
         (<[ key := Item_Item {| Key := key; Contents := value; Modified := clock w1;
                                 Size := Z.of_nat (length value); IsTerminal := true |} ]>
            (table w1))).
Proof.
  intros Hq.
  destruct (storeMarkers_quiet (SplitByte key "/")
              (seq 0 (length (SplitByte key "/") - 1)) w Hq) as (w1 & Hm & Hq1 & _ & Hc).
  rewrite length_seq in Hc.
  exists w1. split; [done |]. split; [done |]. by apply Store_after_markers.
Qed.

(** What [Load] and [Stat] make of the record found at [key]. *)
Lemma Load_found ctx key item w :
  runs ctx w -> table w !! key = Some item -> (size item =? 0)%nat = false ->
  fst (Load ctx key w)
  = match Item_Load zeroItem item with
    | (_, Some err) => Err err
    | (i, None) => Ok (Contents i)
    end.
Proof.
  intros Hr Hk Hs. unfold Load, bind. rewrite GetItem_runs by done.
  rewrite Hk. unfold default, id. cbn beta iota. rewrite Hs.
  by destruct (Item_Load zeroItem item) as [i [e |]].
Qed.

Lemma Stat_found ctx key item w :
  runs ctx w -> table w !! key = Some item -> (size item =? 0)%nat = false ->
  fst (Stat ctx key w)
  = match Item_Load zeroItem item with
    | (_, Some err) => Err err
    | (i, None) =>
        Ok {| certmagic.Key := Key i; certmagic.Modified := Modified i;
              certmagic.IsTerminal := IsTerminal i; certmagic.Size := Size i |}
    end.
Proof.
  intros Hr Hk Hs. unfold Stat, bind. rewrite GetItem_runs by done.
  rewrite Hk. unfold default, id. cbn beta iota. rewrite Hs.
  by destruct (Item_Load zeroItem item) as [i [e |]].
Qed.

(** A payload that is not empty comes back: the terminal record then has
    every attribute the decoder asks for. *)
Lemma Store_then_Load_nonempty key value w t' :
  quiet w ->
  value <> [] ->
  Z.of_nat (length value) <= maxInt64 ->
  IsZero (clock w + Z.of_nat (length (SplitByte key "/") - 1) * latency w) = false ->
  ParseRFC3339
    (FormatRFC3339 (clock w + Z.of_nat (length (SplitByte key "/") - 1) * latency w))
    = Some t' ->
  exists w1, Store Background key value w = (Ok tt, w1)
    /\ fst (Load Background key w1) = Ok value.
Proof.
  intros Hq Hv Hl Hz Hp.
  destruct (Store_quiet key value w Hq) as (w1 & Hq1 & Hc & ->).
  eexists. split; [done |].
  erewrite Load_found;
    [| by apply quiet_runs, quiet_advance | cbn [advance table]; apply lookup_insert_eq
     | apply Item_Item_nonempty].
  rewrite Item_Load_Item_Item_dense with (t := t'); cbn [Contents Modified Size IsTerminal];
    try done; rewrite ?Hc; try done.
  destruct value; [done |]. cbn [length] in *. lia.
Qed.

(** C1, at the empty payload: [Store] succeeds and writes a record without
    [Contents]; [Load] of the same key then fails with the decoder's
    "invalid attribute value" instead of returning the empty payload. *)
Theorem Store_empty_then_Load_fails key w :
  quiet w ->
  exists w1, Store Background key [] w = (Ok tt, w1)
    /\ fst (Load Background key w1) = Err ErrInvalidAttributeValue.
Proof.
  intros Hq.
  destruct (Store_quiet key [] w Hq) as (w1 & Hq1 & _ & ->).
  eexists. split; [done |].
  erewrite Load_found;
    [| by apply quiet_runs, quiet_advance | cbn [advance table]; apply lookup_insert_eq
     | apply Item_Item_nonempty].
  match goal with |- context [Item_Load zeroItem ?it] =>
    assert (Hl : snd (Item_Load zeroItem it) = Some ErrInvalidAttributeValue)
      by (apply Item_Load_no_Contents; by rewrite Item_Item_Contents);
    destruct (Item_Load zeroItem it) as [i [e |]] end;
    cbn [snd] in Hl; by simplify_eq.
Qed.

Lemma Store_empty_then_Load_fails_witness :
  quiet world0 /\
  exists w1, Store Background "example.com/site.crt" [] world0 = (Ok tt, w1)
    /\ fst (Load Background "example.com/site.crt" w1) = Err ErrInvalidAttributeValue.
Proof.
  split; [reflexivity |].
  apply (Store_empty_then_Load_fails "example.com/site.crt" world0). reflexivity.
Defined.

(** C3, at the two markers: for every payload, [Store] of ["a/b/c"]
    succeeds, and [Stat] of ["a"] and of ["a/b"] then fail with the
    decoder's "invalid attribute value": a marker is stored without
    [Contents], which the decoder demands. They do not report
    [isTerminal = false]. *)
Theorem Store_abc_then_Stat_markers_fail value w :
  quiet w ->
  exists w1, Store Background "a/b/c" value w = (Ok tt, w1)
    /\ fst (Stat Background "a" w1) = Err ErrInvalidAttributeValue
    /\ fst (Stat Background "a/b" w1) = Err ErrInvalidAttributeValue.
Proof.
  intros Hq.
  destruct (Store_three "a" "b" "c" value w Hq eq_refl) as (t1 & t2 & w1 & Hs & Hq1 & Ht).
  change ("a" ++ "/" ++ "b" ++ "/" ++ "c") with "a/b/c" in *.
  change ("a" ++ "/" ++ "b") with "a/b" in *.
  exists w1. split; [done |]. split.
  - erewrite Stat_found; [| by apply quiet_runs | rewrite Ht; by simplify_map_eq
                          | apply Item_Item_nonempty].
    by rewrite marker_undecodable.
  - erewrite Stat_found; [| by apply quiet_runs | rewrite Ht; by simplify_map_eq
                          | apply Item_Item_nonempty].
    by rewrite marker_undecodable.
Qed.

Lemma Store_abc_then_Stat_markers_fail_witness :
  quiet world0 /\
  exists w1, Store Background "a/b/c" [Byte.x2d; Byte.x2d] world0 = (Ok tt, w1)
    /\ fst (Stat Background "a" w1) = Err ErrInvalidAttributeValue
    /\ fst (Stat Background "a/b" w1) = Err ErrInvalidAttributeValue.
Proof.
  split; [reflexivity |].
  apply (Store_abc_then_Stat_markers_fail [Byte.x2d; Byte.x2d] world0). reflexivity.
Defined.

(** The leaf of C3 does hold for a payload that is not empty: [Stat] of
    ["a/b/c"] reports a terminal record of the payload's size. *)
Lemma Store_abc_then_Stat_leaf value w t' :
  quiet w ->
  value <> [] ->
  Z.of_nat (length value) <= maxInt64 ->
  IsZero (clock w + 2 * latency w) = false ->
  ParseRFC3339 (FormatRFC3339 (clock w + 2 * latency w)) = Some t' ->
  exists w1, Store Background "a/b/c" value w = (Ok tt, w1)
    /\ fst (Stat Background "a/b/c" w1)
       = Ok {| certmagic.Key := "a/b/c"; certmagic.Modified := t';
               certmagic.IsTerminal := true;
               certmagic.Size := Z.of_nat (length value) |}.
Proof.
  intros Hq Hv Hl Hz Hp.
  destruct (Store_three "a" "b" "c" value w Hq eq_refl) as (t1 & t2 & w1 & Hs & Hq1 & Ht).
  change ("a" ++ "/" ++ "b" ++ "/" ++ "c") with "a/b/c" in *.
  change ("a" ++ "/" ++ "b") with "a/b" in *.
  exists w1. split; [done |].
  erewrite Stat_found; [| by apply quiet_runs | rewrite Ht; by simplify_map_eq
                        | apply Item_Item_nonempty].
  rewrite Item_Load_Item_Item_dense with (t := t');
    cbn [Contents Modified Size IsTerminal Key setModified]; try done.
  destruct value; [done |]. cbn [length] in *. lia.
Qed.

(** With the empty payload the leaf of C3 fails as the markers do. *)
Lemma Store_abc_empty_then_Stat_leaf_fails w :
  quiet w ->
  exists w1, Store Background "a/b/c" [] w = (Ok tt, w1)
    /\ fst (Stat Background "a/b/c" w1) = Err ErrInvalidAttributeValue.
Proof.
  intros Hq.
  destruct (Store_three "a" "b" "c" [] w Hq eq_refl) as (t1 & t2 & w1 & Hs & Hq1 & Ht).
  change ("a" ++ "/" ++ "b" ++ "/" ++ "c") with "a/b/c" in *.
  exists w1. split; [done |].
  erewrite Stat_found; [| by apply quiet_runs | rewrite Ht; by simplify_map_eq
                        | apply Item_Item_nonempty].
  unfold Item_Load. by rewrite Item_Item_Key, Item_Item_Contents.
Qed.

(** ** [Delete] and [List] *)

Lemma decodeError_not_ErrNotExist e : decodeError e -> e <> ErrNotExist.
Proof. intros [-> | [[v ->] | (v & k & ->)]]; done. Qed.

(** [Delete] of a key whose record does not decode: the record is gone, the
    error is the decoder's, and nothing under the key has been touched. *)
Lemma Delete_found_undecodable ctx key item e w :
  runs ctx w -> table w !! key = Some item -> (size item =? 0)%nat = false ->
  snd (Item_Load zeroItem item) = Some e ->
  Delete ctx key w = (Err e, advance w (EvDeleteItem key) (delete key (table w))).
Proof.
  intros Hr Hk Hs He. unfold Delete, bind. rewrite DeleteItem_runs by done.
  rewrite Hk. unfold default, id. cbn beta iota. rewrite Hs.
  destruct (Item_Load zeroItem item) as [i o]. cbn [snd] in He. by subst o.
Qed.

Lemma listItems_undecodable path recursive items :
  forall keys item,
  In item items -> snd (Item_Load zeroItem item) <> None ->
  exists e, listItems path recursive items keys = Err e /\ decodeError e.
Proof.
  induction items as [| i items IH]; intros keys item Hin Hbad; [done |].
  cbn [listItems].
  destruct (Item_Load zeroItem i) as [it [e |]] eqn:Hi.
  - exists e. split; [done |]. apply (Item_Load_error zeroItem i). by rewrite Hi.
  - destruct Hin as [-> | Hin]; [by rewrite Hi in Hbad |].
    destruct (negb recursive && Contains (TrimPrefix (Key it) (path ++ "/")) "/");
      by eapply IH.
Qed.

(** [List] of a path under which a record does not decode fails with a
    decoding error, whatever else is there and whatever [recursive] is. *)
Lemma List_undecodable ctx path recursive key item w :
  runs ctx w -> table w !! key = Some item ->
  beginsWith (path ++ "/") item = true ->
  snd (Item_Load zeroItem item) <> None ->
  exists e, fst (List ctx path recursive w) = Err e /\ decodeError e.
Proof.
  intros Hr Hk Hb Hbad. unfold List, bind. rewrite Scan_runs by done.
  assert (Hin : In item (List.filter (beginsWith (path ++ "/"))
                           (snd <$> map_to_list (table w)))).
  { apply filter_In. split; [| done]. apply list_elem_of_In, list_elem_of_fmap.
    exists (key, item). split; [done |]. by apply elem_of_map_to_list. }
  destruct (List.filter _ _) as [| i items] eqn:Hf; [done |].
  cbn [length Nat.eqb fst].
  by eapply listItems_undecodable.
Qed.

Lemma beginsWith_Item_Item prefix i :
  beginsWith prefix (Item_Item i) = HasPrefix (Key i) prefix.
Proof. unfold beginsWith. by rewrite keyOf_Item_Item. Qed.

(** C4: with ["a/b/x"] and ["a/b/y"] stored, [Delete] of ["a"] removes the
    marker at ["a"], fails to decode it and returns "invalid attribute
    value" before it scans: the two files and the marker ["a/b"] are still
    there, and [List] of ["a"] then fails with a decoding error, which is
    not the not-found condition. *)
Theorem Delete_directory_fails vx vy w :
  quiet w ->
  exists w1 w2 w3,
    Store Background "a/b/x" vx w = (Ok tt, w1)
    /\ Store Background "a/b/y" vy w1 = (Ok tt, w2)
    /\ Delete Background "a" w2 = (Err ErrInvalidAttributeValue, w3)
    /\ is_Some (table w3 !! "a/b/x") /\ is_Some (table w3 !! "a/b/y")
    /\ is_Some (table w3 !! "a/b")
    /\ exists e, fst (List Background "a" true w3) = Err e
         /\ decodeError e /\ e <> ErrNotExist.
Proof.
  intros Hq.
  destruct (Store_three "a" "b" "x" vx w Hq eq_refl) as (t1 & t2 & w1 & Hs1 & Hq1 & Ht1).
  destruct (Store_three "a" "b" "y" vy w1 Hq1 eq_refl) as (u1 & u2 & w2 & Hs2 & Hq2 & Ht2).
  change ("a" ++ "/" ++ "b" ++ "/" ++ "x") with "a/b/x" in *.
  change ("a" ++ "/" ++ "b" ++ "/" ++ "y") with "a/b/y" in *.
  change ("a" ++ "/" ++ "b") with "a/b" in *.
  set (w3 := advance w2 (EvDeleteItem "a") (delete "a" (table w2))).
  assert (Hq3 : quiet w3) by by apply quiet_advance.
  assert (Ht3 : table w3 = delete "a" (table w2)) by done.
  exists w1, w2, w3. split; [done |]. split; [done |]. split.
  { erewrite Delete_found_undecodable;
      [| by apply quiet_runs | rewrite Ht2; by simplify_map_eq | apply Item_Item_nonempty
       | by rewrite marker_undecodable].
    done. }
  split; [rewrite Ht3, Ht2, Ht1; by simplify_map_eq |].
  split; [rewrite Ht3, Ht2; by simplify_map_eq |].
  split; [rewrite Ht3, Ht2; by simplify_map_eq |].
  edestruct (List_undecodable Background "a" true "a/b") with (w := w3) as (e & He & Hd);
    [by apply quiet_runs
    | rewrite Ht3, Ht2; by simplify_map_eq
    | by rewrite beginsWith_Item_Item
    | by rewrite marker_undecodable |].
  exists e. split; [done |]. split; [done |].
  by apply decodeError_not_ErrNotExist.
Qed.

Lemma Delete_directory_fails_witness :
  quiet world0 /\
  exists w1 w2 w3,
    Store Background "a/b/x" [Byte.x01] world0 = (Ok tt, w1)
    /\ Store Background "a/b/y" [Byte.x02] w1 = (Ok tt, w2)
    /\ Delete Background "a" w2 = (Err ErrInvalidAttributeValue, w3)
    /\ is_Some (table w3 !! "a/b/x") /\ is_Some (table w3 !! "a/b/y")
    /\ is_Some (table w3 !! "a/b")
    /\ exists e, fst (List Background "a" true w3) = Err e
         /\ decodeError e /\ e <> ErrNotExist.
Proof.
  split; [reflexivity |].
  apply (Delete_directory_fails [Byte.x01] [Byte.x02] world0). reflexivity.
Defined.

(** C5: with ["foo/cert/key"] and ["foo/cert/chain"] stored, the scan of
    [List] of ["foo"] meets the marker ["foo/cert"], which does not decode:
    [List] fails with a decoding error instead of returning ["foo/cert"]. *)
Theorem List_children_fails vk vc w :
  quiet w ->
  exists w1 w2,
    Store Background "foo/cert/key" vk w = (Ok tt, w1)
    /\ Store Background "foo/cert/chain" vc w1 = (Ok tt, w2)
    /\ exists e, fst (List Background "foo" false w2) = Err e /\ decodeError e.
Proof.
  intros Hq.
  destruct (Store_three "foo" "cert" "key" vk w Hq eq_refl)
    as (t1 & t2 & w1 & Hs1 & Hq1 & Ht1).
  destruct (Store_three "foo" "cert" "chain" vc w1 Hq1 eq_refl)
    as (u1 & u2 & w2 & Hs2 & Hq2 & Ht2).
  change ("foo" ++ "/" ++ "cert" ++ "/" ++ "key") with "foo/cert/key" in *.
  change ("foo" ++ "/" ++ "cert" ++ "/" ++ "chain") with "foo/cert/chain" in *.
  change ("foo" ++ "/" ++ "cert") with "foo/cert" in *.
  exists w1, w2. split; [done |]. split; [done |].
  eapply (List_undecodable Background "foo" false "foo/cert");
    [by apply quiet_runs | rewrite Ht2; by simplify_map_eq
    | by rewrite beginsWith_Item_Item | by rewrite marker_undecodable].
Qed.

Lemma List_children_fails_witness :
  quiet world0 /\
  exists w1 w2,
    Store Background "foo/cert/key" [Byte.x6b] world0 = (Ok tt, w1)
    /\ Store Background "foo/cert/chain" [Byte.x63] w1 = (Ok tt, w2)
    /\ exists e, fst (List Background "foo" false w2) = Err e /\ decodeError e.
Proof.
  split; [reflexivity |].
  apply (List_children_fails [Byte.x6b] [Byte.x63] world0). reflexivity.
Defined.

(** ** Keys and their prefixes *)

Section Paths.

Local Abbreviation sep := "/"%char.
Local Arguments Ascii.eqb : simpl never.

Lemma SplitByte_cons s : exists f fs, SplitByte s sep = f :: fs.
Proof.
  destruct s as [| c s]; [by exists "", [] |]. cbn [SplitByte].
  destruct (Ascii.eqb c sep); [by eexists _, _ |].
  destruct (SplitByte s sep); by eexists _, _.
Qed.

Lemma Join_cons_char c f fs :
  Join (String c f :: fs) "/" = String c (Join (f :: fs) "/").
Proof. by destruct fs. Qed.

Lemma Join_SplitByte s : Join (SplitByte s sep) "/" = s.
Proof.
  induction s as [| c s IH]; [done |]. cbn [SplitByte].
  destruct (Ascii.eqb_spec c sep) as [-> | Hne].
  - destruct (SplitByte_cons s) as (f & fs & Hs). rewrite Hs in *.
    change (Join ("" :: f :: fs) "/") with (String sep (Join (f :: fs) "/")).
    by rewrite IH.
  - destruct (SplitByte_cons s) as (f & fs & Hs). rewrite Hs in *.
    by rewrite Join_cons_char, IH.
Qed.

Lemma SplitByte_noByte s : Forall (fun f => noByte sep f = true) (SplitByte s sep).
Proof.
  induction s as [| c s IH]; [by repeat constructor |]. cbn [SplitByte].
  destruct (Ascii.eqb c sep) eqn:Hc; [by constructor |].
  destruct (SplitByte s sep) as [| f fs]; [by repeat constructor; cbn; rewrite Hc |].
  inversion IH as [| ? ? Hf Hfs]; subst. constructor; [| done].
  cbn [noByte]. by rewrite Hc, Hf.
Qed.

Lemma HasPrefix_noByte a q : HasPrefix a q = true -> noByte sep a = true -> noByte sep q = true.
Proof.
  revert a. induction q as [| c q IH]; intros a; [done |].
  destruct a as [| d a]; [done |]. cbn [HasPrefix noByte].
  destruct (Ascii.eqb_spec c d) as [-> | ?]; [| done].
  intros Hp [Hd Ha]%andb_true_iff. rewrite Hd. by apply IH with a.
Qed.

Lemma noByte_app_sep p : noByte sep (p ++ "/") = false.
Proof.
  induction p as [| c p IH]; [done |]. simpl. rewrite IH. apply andb_false_r.
Qed.

(** A prefix that ends on a slash, of a string that starts with a field and
    a slash, is that field or goes beyond it. *)
Lemma HasPrefix_field a rest p :
  noByte sep a = true ->
  HasPrefix (a ++ "/" ++ rest) (p ++ "/") = true ->
  p = a \/ exists p', p = a ++ "/" ++ p' /\ HasPrefix rest (p' ++ "/") = true.
Proof.
  revert p. induction a as [| x a IH]; intros p Ha Hp.
  - destruct p as [| c p]; [by left |]. right. exists p. simpl in Hp.
    destruct (Ascii.eqb_spec c sep) as [-> | ?]; done.
  - cbn [noByte] in Ha. apply andb_true_iff in Ha as [Hx Ha].
    destruct p as [| c p]; simpl in Hp.
    + destruct (Ascii.eqb_spec sep x) as [<- | ?]; done.
    + destruct (Ascii.eqb_spec c x) as [-> | ?]; [| done].
      destruct (IH p Ha Hp) as [-> | (p' & -> & Hr)]; [by left |].
      right. by exists p'.
Qed.

(** The prefixes, up to a slash, of the first [m] fields joined are the
    first [j] fields joined, for some [j] between one and [m], [m] excluded. *)
Lemma HasPrefix_Join parts :
  Forall (fun f => noByte sep f = true) parts ->
  forall m p,
  HasPrefix (Join (take m parts) "/") (p ++ "/") = true ->
  exists j, (j + 1 < m)%nat /\ (j + 1 < length parts)%nat
    /\ p = Join (take (j + 1) parts) "/".
Proof.
  induction 1 as [| a rest Ha Hrest IH]; intros m p Hp.
  - rewrite take_nil in Hp. by destruct p.
  - destruct m as [| m]; [by destruct p |]. cbn [take] in Hp.
    destruct (take m rest) as [| b l] eqn:Ht.
    + cbn [Join] in Hp. apply HasPrefix_noByte in Hp; [| done].
      by rewrite noByte_app_sep in Hp.
    + assert (Hm : (0 < m)%nat /\ (0 < length rest)%nat).
      { destruct m; [done |]. destruct rest; [done |]. cbn [length]. lia. }
      change (Join (a :: b :: l) "/") with (a ++ "/" ++ Join (b :: l) "/") in Hp.
      destruct (HasPrefix_field a _ p Ha Hp) as [-> | (p' & -> & Hr)].
      * exists 0%nat. cbn [length]. split; [lia |]. split; [lia | done].
      * rewrite <- Ht in Hr. destruct (IH m p' Hr) as (j & Hj1 & Hj2 & ->).
        exists (S j). cbn [length]. repeat split; try lia.
        cbn [Nat.add take]. destruct rest as [| r rest']; [cbn in Hj2; lia |].
        replace (j + 1)%nat with (S j) by lia. done.
Qed.

(** The keys of one [Store] are closed under taking prefixes. *)
Lemma storeKeys_closed key k p :
  In k (storeKeys key) -> HasPrefix k (p ++ "/") = true -> In p (storeKeys key).
Proof.
  unfold storeKeys. intros Hk Hp.
  assert (Hm : exists m, k = Join (take m (SplitByte key sep)) "/"
                         /\ (m <= length (SplitByte key sep))%nat).
  { apply in_app_or in Hk as [Hk | [<- | []]].
    - apply in_map_iff in Hk as (i & <- & Hi). apply in_seq in Hi.
      exists (i + 1)%nat. split; [done | lia].
    - exists (length (SplitByte key sep)). rewrite firstn_all. by rewrite Join_SplitByte. }
  destruct Hm as (m & -> & Hm).
  apply HasPrefix_Join in Hp as (j & Hj1 & Hj2 & ->); [| apply SplitByte_noByte].
  apply in_or_app. left. apply in_map_iff. exists j. split; [done |].
  apply in_seq. lia.
Qed.

Lemma written_closed ops k p :
  In k (written ops) -> HasPrefix k (p ++ "/") = true -> In p (written ops).
Proof.
  unfold written. intros Hk Hp. apply in_flat_map in Hk as (op & Hop & Hk).
  apply in_flat_map. exists op. split; [done |]. destruct op; [| done].
  by eapply storeKeys_closed.
Qed.

End Paths.

(** ** What a history leaves in the table *)

Section Keeps.

Variable P : gmap string AttrMap -> Prop.

Lemma keeps_ret {A} (a : A) : keeps P (ret a).
Proof. by intros w. Qed.

Lemma keeps_fail {A} e : keeps P (@fail A e).
Proof. by intros w. Qed.

Lemma keeps_bind {A B} (m : M A) (k : A -> M B) :
  keeps P m -> (forall a, keeps P (k a)) -> keeps P (bind m k).
Proof.
  intros Hm Hk w Hw. unfold bind. specialize (Hm w Hw).
  destruct (m w) as [[a | e] w1]; [by apply Hk | done].
Qed.

Lemma keeps_request {A} ctx ev (op : gmap string AttrMap -> result A * gmap string AttrMap) :
  (forall t, P t -> P (snd (op t))) -> keeps P (request ctx ev op).
Proof.
  intros Hop w Hw. unfold request. destruct (ctxDone ctx (clock w)); [done |].
  destruct (nextFault w); [done |]. specialize (Hop (table w) Hw).
  by destruct (op (table w)).
Qed.

Lemma keeps_Now : keeps P Now.
Proof. by intros w. Qed.

Lemma keeps_Scan ctx prefix : keeps P (Scan ctx prefix).
Proof. by apply keeps_request. Qed.

End Keeps.

Section KeysWithin.

Variable keys : list string.

Lemma keysWithin_insert k item t :
  keyOf item = Some k -> In k keys ->
  keysWithin keys t -> keysWithin keys (<[ k := item ]> t).
Proof.
  intros Hk Hin Ht k' item' Hl. destruct (decide (k = k')) as [<- | Hne].
  - rewrite lookup_insert_eq in Hl. by injection Hl as <-.
  - rewrite lookup_insert_ne in Hl by done. by apply Ht.
Qed.

Lemma keysWithin_delete k t : keysWithin keys t -> keysWithin keys (delete k t).
Proof.
  intros Ht k' item' Hl. apply lookup_delete_Some in Hl as [_ Hl]. by apply Ht.
Qed.

Lemma keeps_PutItem ctx i :
  In (Key i) keys -> keeps (keysWithin keys) (PutItem ctx (Item_Item i)).
Proof.
  intros Hin. unfold PutItem. rewrite keyOf_Item_Item. apply keeps_request.
  intros t Ht. apply keysWithin_insert; [apply keyOf_Item_Item | done | done].
Qed.

Lemma keeps_DeleteItem ctx key : keeps (keysWithin keys) (DeleteItem ctx key).
Proof. apply keeps_request. intros t Ht. by apply keysWithin_delete. Qed.

Lemma keeps_storeMarkers ctx keyParts idx :
  Forall (fun i => In (Join (take (i + 1) keyParts) "/") keys) idx ->
  keeps (keysWithin keys) (storeMarkers ctx keyParts idx).
Proof.
  induction 1 as [| i idx Hi Hidx IH]; [apply keeps_ret |]. cbn [storeMarkers].
  apply keeps_bind; [apply keeps_Now | intros now].
  apply keeps_bind; [by apply keeps_PutItem | done].
Qed.

Lemma keeps_Store ctx key value :
  incl (storeKeys key) keys -> keeps (keysWithin keys) (Store ctx key value).
Proof.
  intros Hincl. unfold Store. apply keeps_bind.
  - apply keeps_storeMarkers. apply List.Forall_forall. intros i Hi.
    apply Hincl. unfold storeKeys. apply in_or_app. left.
    apply in_map_iff. by exists i.
  - intros _. apply keeps_bind; [apply keeps_Now | intros now].
    apply keeps_PutItem. apply Hincl. unfold storeKeys. apply in_or_app. right. by left.
Qed.

Lemma keeps_deleteItems ctx items : keeps (keysWithin keys) (deleteItems ctx items).
Proof.
  induction items as [| i items IH]; [apply keeps_ret |]. cbn [deleteItems].
  apply keeps_bind; [| done].
  destruct (keyOf i); [apply keeps_DeleteItem | by apply keeps_request].
Qed.

Lemma keeps_Delete ctx key : keeps (keysWithin keys) (Delete ctx key).
Proof.
  unfold Delete. apply keeps_bind; [apply keeps_DeleteItem | intros output].
  destruct (size output =? 0)%nat; [apply keeps_ret |].
  destruct (Item_Load zeroItem output) as [item [e |]]; [apply keeps_fail |].
  destruct (negb (IsTerminal item)); [| apply keeps_ret].
  apply keeps_bind; [apply keeps_Scan | intros items].
  destruct (length items =? 0)%nat; [apply keeps_fail | apply keeps_deleteItems].
Qed.

End KeysWithin.

(** Whatever its calls return, a history that starts on the empty table
    leaves records only at keys it has written. *)
Lemma runOps_keysWithin ops :
  forall keys w, incl (written ops) keys ->
  keysWithin keys (table w) -> keysWithin keys (table (runOps ops w)).
Proof.
  induction ops as [| op ops IH]; intros keys w Hincl Hw; [done |].
  cbn [runOps fold_left]. apply IH.
  - intros k Hk. apply Hincl. cbn [written flat_map]. apply in_or_app. by right.
  - destruct op as [ctx key value | ctx key]; cbn [runOp].
    + apply keeps_Store; [| done]. intros k Hk. apply Hincl.
      cbn [written flat_map]. apply in_or_app. by left.
    + by apply keeps_Delete.
Qed.

(** ** Keys that hold nothing *)

Lemma filter_none {A} (f : A -> bool) (l : list A) :
  (forall x, In x l -> f x = false) -> List.filter f l = [].
Proof.
  induction l as [| a l IH]; intros H; [done |]. cbn [List.filter].
  rewrite (H a) by by left. apply IH. intros x Hx. apply H. by right.
Qed.

Lemma Scan_nothing ctx prefix w :
  runs ctx w ->
  (forall k item, table w !! k = Some item -> beginsWith prefix item = false) ->
  Scan ctx prefix w = (Ok [], advance w (EvScan prefix) (table w)).
Proof.
  intros Hr Hn. rewrite Scan_runs by done. rewrite filter_none; [done |].
  intros item Hin. apply list_elem_of_In, list_elem_of_fmap in Hin.
  destruct Hin as ([k it] & -> & Hin). apply elem_of_map_to_list in Hin. by eapply Hn.
Qed.

(** C6 as stated fails at [Delete]: on a table that holds nothing, [Delete]
    of a key succeeds; it does not fail with the not-found condition. *)
Lemma Delete_absent_not_ErrNotExist :
  table world0 !! "never/written" = None
  /\ fst (Delete Background "never/written" world0) = Ok tt
  /\ fst (Delete Background "never/written" world0) <> Err ErrNotExist.
Proof. split; [reflexivity |]. split; [reflexivity |]. discriminate. Qed.

(** At a key that holds no record, [Load] and [Stat] fail with the not-found
    condition, and so does [List] when no stored key begins with the key
    and a slash; [Delete] succeeds and leaves the table as it is. *)
Lemma absent_key ctx key recursive w :
  runs ctx w ->
  table w !! key = None ->
  (forall k item, table w !! k = Some item -> beginsWith (key ++ "/") item = false) ->
  fst (Load ctx key w) = Err ErrNotExist
  /\ fst (Stat ctx key w) = Err ErrNotExist
  /\ fst (List ctx key recursive w) = Err ErrNotExist
  /\ Delete ctx key w = (Ok tt, advance w (EvDeleteItem key) (table w)).
Proof.
  intros Hr Hk Hn. repeat split.
  - unfold Load, bind. rewrite GetItem_runs by done. by rewrite Hk.
  - unfold Stat, bind. rewrite GetItem_runs by done. by rewrite Hk.
  - unfold List, bind. by rewrite Scan_nothing.
  - unfold Delete, bind. rewrite DeleteItem_runs by done. rewrite Hk.
    cbn [default]. rewrite map_size_empty. cbn [Nat.eqb ret].
    by rewrite delete_id.
Qed.

(** C6, amended: in a table that calls of [Store] and [Delete] alone have
    touched since it was empty, at a key that no [Store] has written (as the
    key stored or as one of its prefixes), [Load], [Stat] and [List] fail
    with the not-found condition, and [Delete] succeeds and leaves the table
    as it is. *)
Theorem never_written_key ops ctx key recursive w0 :
  table w0 = ∅ ->
  ~ In key (written ops) ->
  runs ctx (runOps ops w0) ->
  fst (Load ctx key (runOps ops w0)) = Err ErrNotExist
  /\ fst (Stat ctx key (runOps ops w0)) = Err ErrNotExist
  /\ fst (List ctx key recursive (runOps ops w0)) = Err ErrNotExist
  /\ Delete ctx key (runOps ops w0)
     = (Ok tt, advance (runOps ops w0) (EvDeleteItem key) (table (runOps ops w0))).
Proof.
  intros Hempty Hnew Hr.
  assert (Hin : keysWithin (written ops) (table (runOps ops w0))).
  { apply runOps_keysWithin; [apply incl_refl |]. rewrite Hempty. intros k item Hl.
    by rewrite lookup_empty in Hl. }
  apply absent_key; [done | |].
  - destruct (table (runOps ops w0) !! key) as [item |] eqn:Hl; [| done].
    by destruct (Hin _ _ Hl).
  - intros k item Hl. destruct (Hin _ _ Hl) as [Hk Hw].
    unfold beginsWith. rewrite Hk.
    destruct (HasPrefix k (key ++ "/")) eqn:Hp; [| done].
    destruct Hnew. by eapply written_closed.
Qed.

Lemma never_written_key_witness :
  fst (Load Background "a/x" (runOps history0 world0)) = Err ErrNotExist
  /\ fst (Stat Background "a/x" (runOps history0 world0)) = Err ErrNotExist
  /\ fst (List Background "a/x" true (runOps history0 world0)) = Err ErrNotExist
  /\ Delete Background "a/x" (runOps history0 world0)
     = (Ok tt, advance (runOps history0 world0) (EvDeleteItem "a/x")
                 (table (runOps history0 world0))).
Proof.
  apply (never_written_key history0 Background "a/x" true world0).
  - reflexivity.
  - vm_compute. intuition discriminate.
  - split; reflexivity.
Defined.

(** ** Records stored sparsely *)

Lemma keyOf_nonempty item k : keyOf item = Some k -> (size item =? 0)%nat = false.
Proof.
  intros Hk. apply Nat.eqb_neq. intros Hz. apply map_size_empty_iff in Hz.
  subst item. unfold keyOf in Hk. by rewrite lookup_empty in Hk.
Qed.

(** C9: at a key whose stored record lacks [Contents], [Size] or
    [IsTerminal] (a marker written by [Store] lacks all three), [Exists]
    answers true, since it only counts the attributes, while [Load] and
    [Stat] both fail with one and the same decoding error, which is not the
    not-found condition. *)
Theorem sparse_record_exists_but_does_not_decode ctx key item w :
  runs ctx w ->
  table w !! key = Some item ->
  keyOf item = Some key ->
  sparse item ->
  fst (Exists ctx key w) = true
  /\ exists e, decodeError e /\ e <> ErrNotExist
       /\ fst (Load ctx key w) = Err e /\ fst (Stat ctx key w) = Err e.
Proof.
  intros Hr Hk Hkey Hs. pose proof (keyOf_nonempty _ _ Hkey) as Hne. split.
  - unfold Exists. rewrite GetItem_runs by done. rewrite Hk. cbn [default fst].
    apply Nat.eqb_neq in Hne. apply Nat.ltb_lt. unfold id. lia.
  - destruct (Item_Load_sparse zeroItem item Hs) as (e & He & Hd).
    exists e. split; [done |]. split; [by apply decodeError_not_ErrNotExist |].
    erewrite Load_found, Stat_found by done.
    destruct (Item_Load zeroItem item) as [i o]. cbn [snd] in He. by subst o.
Qed.

Lemma sparse_record_exists_but_does_not_decode_witness :
  fst (Exists Background "a/b" world1) = true
  /\ exists e, decodeError e /\ e <> ErrNotExist
       /\ fst (Load Background "a/b" world1) = Err e
       /\ fst (Stat Background "a/b" world1) = Err e.
Proof.
  eapply (sparse_record_exists_but_does_not_decode Background "a/b" _ world1).
  - split; reflexivity.
  - vm_compute. reflexivity.
  - vm_compute. reflexivity.
  - left. vm_compute. reflexivity.
Defined.

(** ** The lock *)

(** C10: when no lock record is at the key of [name], [Unlock] succeeds as
    soon as its request reaches the table, which it leaves as it is; and
    whatever the table holds, an error of [Unlock] is the context's or the
    client's, never the not-found condition. *)
Theorem Unlock_absent_lock ctx name w :
  table w !! lockKey name = None ->
  (runs ctx w ->
     Unlock ctx name w = (Ok tt, advance w (EvDeleteItem (lockKey name)) (table w)))
  /\ (forall e, fst (Unlock ctx name w) = Err e ->
        e <> ErrNotExist /\ (e = ErrContext \/ exists code, e = ErrBackend code)).
Proof.
  intros Hk. split.
  - intros Hr. unfold Unlock, deleteLock, bind. rewrite DeleteItem_runs by done.
    cbn [ret]. by rewrite delete_id.
  - intros e He. unfold Unlock, deleteLock, bind in He.
    destruct (DeleteItem ctx (lockKey name) w) as [[a | e'] w'] eqn:Hd; [done |].
    cbn [fst] in He. injection He as ->.
    assert (Hd' : fst (DeleteItem ctx (lockKey name) w) = Err e) by by rewrite Hd.
    apply request_error in Hd'. destruct Hd' as [-> | [[code ->] | Hop]]; [| | done].
    + split; [done | by left].
    + split; [done | right; by exists code].
Qed.

Lemma Unlock_absent_lock_witness :
  Unlock Background "issue_cert_example.com" world1
  = (Ok tt, advance world1 (EvDeleteItem (lockKey "issue_cert_example.com")) (table world1)).
Proof.
  apply (Unlock_absent_lock Background "issue_cert_example.com" world1).
  - vm_compute. reflexivity.
  - split; reflexivity.
Defined.

Lemma keyOf_lockItem name now : keyOf (lockItem name now) = Some (lockKey name).
Proof. unfold keyOf, lockItem. by simplify_map_eq. Qed.

(** The conditional put fails on a lock record that is there; the exception
    carries the record on a backend that hands it over unasked, and nothing
    otherwise. *)
Lemma PutItemIfAbsent_held ctx name now found w :
  runs ctx w -> table w !! lockKey name = Some found ->
  PutItemIfAbsent ctx (lockItem name now) w
  = (Err (ConditionalCheckFailedException (if itemOnFailure w then found else ∅)),
     advance w (EvPutItemIfAbsent (lockKey name)) (table w)).
Proof.
  intros Hr Hk. unfold PutItemIfAbsent. rewrite keyOf_lockItem.
  rewrite request_runs by done. by rewrite Hk.
Qed.





(** C7, on a backend that fills the exception of a failed condition only
    when asked, as DynamoDB does: the put of [Lock] does not ask, so the
    exception carries no [Locked] whatever the lock record holds and
    however old it is. When the put fails because a lock record is there,
    [Lock] returns "invalid Locked attribute" after that one request: it
    neither sleeps and tries again while the record is fresh nor deletes
    the record when it is stale, and the table is as it was. *)
Theorem Lock_held_returns_invalid_Locked n ctx name found w :
  itemOnFailure w = false ->
  runs ctx w ->
  table w !! lockKey name = Some found ->
  Lock (S n) ctx name w
  = (Some (Some ErrInvalidLocked),
     advance w (EvPutItemIfAbsent (lockKey name)) (table w)).
Proof.
  intros Hflag Hr Hk. cbn [Lock]. unfold lockTurn.
  rewrite (PutItemIfAbsent_held ctx name _ found w Hr Hk). rewrite Hflag.
  by rewrite lookup_empty.
Qed.

Lemma Lock_held_returns_invalid_Locked_witness :
  Lock 5 Background "renew" (heldWorldUnasked (10 * Second))
  = (Some (Some ErrInvalidLocked),
     advance (heldWorldUnasked (10 * Second)) (EvPutItemIfAbsent (lockKey "renew"))
       (table (heldWorldUnasked (10 * Second)))).
Proof.
  eapply (Lock_held_returns_invalid_Locked 4 Background "renew" _
            (heldWorldUnasked (10 * Second))).
  - reflexivity.
  - split; reflexivity.
  - vm_compute. reflexivity.
Defined.











(** * Further properties of the code *)

(** ** The codec, both ways *)

Lemma Item_Load_Item_Item_inv (r i : Item) :
  Size r <= maxInt64 ->
  Item_Load zeroItem (Item_Item r) = (i, None) ->
  Contents r <> [] /\ IsZero (Modified r) = false
  /\ ParseRFC3339 (FormatRFC3339 (Modified r)) = Some (Modified i)
  /\ 0 < Size r /\ IsTerminal r = true /\ i = setModified r (Modified i).
Proof.
  intros Hmax. unfold Item_Load.
  rewrite Item_Item_Key, Item_Item_Contents, Item_Item_Modified, Item_Item_Size,
    Item_Item_IsTerminal.
  destruct (Contents r) as [| b bs] eqn:Hc; [done |]. cbn [length Nat.ltb Nat.leb].
  destruct (IsZero (Modified r)) eqn:Hz; [done |]. cbn [negb].
  destruct (ParseRFC3339 (FormatRFC3339 (Modified r))) as [t |] eqn:Hp; [| done].
  destruct (Z.ltb_spec 0 (Size r)) as [Hs | Hs]; [| done].
  rewrite ParseInt_FormatInt by lia.
  destruct (IsTerminal r) eqn:Ht; [| done].
  intros [= <-]. cbn [Modified setIsTerminal setSize setModified setContents setKey].
  repeat split; try done. destruct r; cbn in *; by subst.
Qed.

(** X1: decoding the attribute map of a record succeeds exactly when the
    record has contents, a time that is set and reads back from its
    timestamp, a positive size and the terminal flag; the decoded record is
    then the record itself with the time as the timestamp reads. *)
Theorem codec_roundtrip_iff (r i : Item) :
  Size r <= maxInt64 ->
  Item_Load zeroItem (Item_Item r) = (i, None)
  <-> Contents r <> [] /\ IsZero (Modified r) = false
      /\ ParseRFC3339 (FormatRFC3339 (Modified r)) = Some (Modified i)
      /\ 0 < Size r /\ IsTerminal r = true /\ i = setModified r (Modified i).
Proof.
  intros Hmax. split; [by apply Item_Load_Item_Item_inv |].
  intros (Hc & Hz & Hp & Hs & Ht & Hi). rewrite Hi.
  apply Item_Load_Item_Item_dense; first [done | lia].
Qed.

Lemma codec_roundtrip_iff_witness :
  Item_Load zeroItem (Item_Item (terminal "site/cert" [Byte.x63] (clock world0 + 7)))
  = (terminal "site/cert" [Byte.x63] (clock world0), None).
Proof.
  apply (codec_roundtrip_iff (terminal "site/cert" [Byte.x63] (clock world0 + 7))).
  - by vm_compute.
  - vm_compute. repeat split; discriminate.
Defined.

(** ** Reading back what [Store] wrote *)

Lemma Exists_found ctx key item w :
  runs ctx w -> table w !! key = Some item -> (size item =? 0)%nat = false ->
  fst (Exists ctx key w) = true.
Proof.
  intros Hr Hk Hs. unfold Exists. rewrite GetItem_runs by done. rewrite Hk.
  cbn [default fst]. unfold id. apply Nat.eqb_neq in Hs. apply Nat.ltb_lt. lia.
Qed.

(** X2: after a [Store] of a payload that is not empty and that meets no
    fault, [Load] of the key returns the payload, [Stat] reports the key as
    terminal with the length of the payload and the time of the put as its
    timestamp reads, and [Exists] is true. *)
Theorem Store_then_read key value w t' :
  quiet w ->
  value <> [] ->
  Z.of_nat (length value) <= maxInt64 ->
  IsZero (clock w + Z.of_nat (length (SplitByte key "/") - 1) * latency w) = false ->
  ParseRFC3339
    (FormatRFC3339 (clock w + Z.of_nat (length (SplitByte key "/") - 1) * latency w))
    = Some t' ->
  exists w1, Store Background key value w = (Ok tt, w1)
    /\ fst (Load Background key w1) = Ok value
    /\ fst (Stat Background key w1)
       = Ok {| certmagic.Key := key; certmagic.Modified := t';
               certmagic.IsTerminal := true;
               certmagic.Size := Z.of_nat (length value) |}
    /\ fst (Exists Background key w1) = true.
Proof.
  intros Hq Hv Hl Hz Hp.
  destruct (Store_quiet key value w Hq) as (w1 & Hq1 & Hc & ->).
  eexists. split; [done |].
  assert (Hd : Item_Load zeroItem
                 (Item_Item {| Key := key; Contents := value; Modified := clock w1;
                               Size := Z.of_nat (length value); IsTerminal := true |})
               = ({| Key := key; Contents := value; Modified := t';
                     Size := Z.of_nat (length value); IsTerminal := true |}, None)).
  { rewrite Item_Load_Item_Item_dense with (t := t');
      cbn [Contents Modified Size IsTerminal]; rewrite ?Hc; try done.
    destruct value; [done |]. cbn [length] in *. lia. }
  split; [| split].
  - erewrite Load_found;
      [| by apply quiet_runs, quiet_advance | cbn [advance table]; apply lookup_insert_eq
       | apply Item_Item_nonempty].
    by rewrite Hd.
  - erewrite Stat_found;
      [| by apply quiet_runs, quiet_advance | cbn [advance table]; apply lookup_insert_eq
       | apply Item_Item_nonempty].
    by rewrite Hd.
  - eapply Exists_found;
      [by apply quiet_runs, quiet_advance | cbn [advance table]; apply lookup_insert_eq
      | apply Item_Item_nonempty].
Qed.

Lemma Store_then_read_witness :
  exists w1, Store Background "example.com/site.crt" [Byte.x2d; Byte.x2d] world0 = (Ok tt, w1)
    /\ fst (Load Background "example.com/site.crt" w1) = Ok [Byte.x2d; Byte.x2d]
    /\ fst (Stat Background "example.com/site.crt" w1)
       = Ok {| certmagic.Key := "example.com/site.crt";
               certmagic.Modified := clock world0;
               certmagic.IsTerminal := true; certmagic.Size := 2 |}
    /\ fst (Exists Background "example.com/site.crt" w1) = true.
Proof.
  apply (Store_then_read "example.com/site.crt" [Byte.x2d; Byte.x2d] world0 (clock world0)).
  - reflexivity.
  - discriminate.
  - by vm_compute.
  - reflexivity.
  - vm_compute. reflexivity.
Defined.

(** X3: [Exists] answers true exactly when its request reaches the table
    (the context is live and the client does not fail) and the table holds
    a record with at least one attribute at the key; every failure of the
    request reads as absence. *)
Theorem Exists_true_iff ctx key w :
  fst (Exists ctx key w) = true
  <-> runs ctx w /\ exists item, table w !! key = Some item /\ item <> ∅.
Proof.
  unfold Exists, GetItem, request, runs.
  destruct (ctxDone ctx (clock w)); [cbn; split; [done | by intros [[? ?] ?]] |].
  destruct (nextFault w); [cbn; split; [done | by intros [[? ?] ?]] |].
  cbn [fst]. rewrite Nat.ltb_lt. split.
  - intros Hs. split; [done |]. destruct (table w !! key) as [item |]; cbn in Hs.
    + exists item. split; [done |]. intros ->. rewrite map_size_empty in Hs. lia.
    + rewrite map_size_empty in Hs. lia.
  - intros (_ & item & -> & Hne). cbn.
    enough (size item <> 0%nat) by lia. by rewrite map_size_empty_iff.
Qed.

(** ** What [Store] writes, and where *)

Lemma append_ne_self a c x : a <> a ++ String c x.
Proof. induction a as [| d a IH]; [done |]. simpl. intros [= H]. by apply IH. Qed.

Lemma append_inj_l a x y : a ++ x = a ++ y -> x = y.
Proof. induction a as [| d a IH]; [done |]. simpl. intros [= H]. by apply IH. Qed.

(** Fewer fields joined make another string than all of them. *)
Lemma Join_take_ne parts :
  forall m, (0 < m < length parts)%nat -> Join (take m parts) "/" <> Join parts "/".
Proof.
  induction parts as [| a rest IH]; intros m Hm; [cbn in Hm; lia |].
  destruct m as [| m]; [lia |]. destruct rest as [| b rest]; [cbn in Hm; lia |].
  change (Join (a :: b :: rest) "/") with (a ++ "/" ++ Join (b :: rest) "/").
  destruct m as [| m].
  - cbn [take Join]. apply append_ne_self.
  - change (take (S (S m)) (a :: b :: rest)) with (a :: b :: take m rest).
    change (Join (a :: b :: take m rest) "/")
      with (a ++ "/" ++ Join (take (S m) (b :: rest)) "/").
    intros H. apply append_inj_l in H. apply (append_inj_l "/") in H.
    revert H. apply IH. cbn [length] in *. lia.
Qed.

Lemma key_not_properPrefix key : ~ In key (properPrefixes key).
Proof.
  unfold properPrefixes. intros Hin. apply in_map_iff in Hin as (i & Hi & Hseq).
  apply in_seq in Hseq. rewrite <- (Join_SplitByte key) in Hi at 2.
  revert Hi. apply Join_take_ne. lia.
Qed.

Lemma storeKeys_properPrefixes key : storeKeys key = (properPrefixes key ++ [key])%list.
Proof. reflexivity. Qed.

(** What a put does to the table: nothing when it fails, one insertion
    when it succeeds. *)
Lemma PutItem_table ctx i w :
  (exists e, fst (PutItem ctx (Item_Item i) w) = Err e
     /\ table (snd (PutItem ctx (Item_Item i) w)) = table w)
  \/ (fst (PutItem ctx (Item_Item i) w) = Ok tt
      /\ table (snd (PutItem ctx (Item_Item i) w)) = <[ Key i := Item_Item i ]> (table w)).
Proof.
  unfold PutItem. rewrite keyOf_Item_Item. unfold request.
  destruct (ctxDone ctx (clock w)); [left; by eexists |].
  destruct (nextFault w); [left; by eexists | by right].
Qed.

Section Frame.

Variables (k : string) (v : option AttrMap).

Lemma keeps_at_PutItem ctx i :
  Key i <> k -> keeps (fun t => t !! k = v) (PutItem ctx (Item_Item i)).
Proof.
  intros Hne w Hw.
  destruct (PutItem_table ctx i w) as [(e & _ & ->) | [_ ->]]; [done |].
  by rewrite lookup_insert_ne.
Qed.

Lemma keeps_at_storeMarkers ctx keyParts idx :
  Forall (fun i => Join (take (i + 1) keyParts) "/" <> k) idx ->
  keeps (fun t => t !! k = v) (storeMarkers ctx keyParts idx).
Proof.
  induction 1 as [| i idx Hi Hidx IH]; [apply keeps_ret |]. cbn [storeMarkers].
  apply keeps_bind; [apply keeps_Now | intros now].
  apply keeps_bind; [by apply keeps_at_PutItem | done].
Qed.

Lemma keeps_at_Store ctx key value :
  ~ In k (storeKeys key) -> keeps (fun t => t !! k = v) (Store ctx key value).
Proof.
  intros Hk. rewrite storeKeys_properPrefixes in Hk. unfold Store. apply keeps_bind.
  - apply keeps_at_storeMarkers. apply List.Forall_forall. intros i Hi Heq.
    apply Hk, in_or_app. left. unfold properPrefixes. apply in_map_iff. by exists i.
  - intros _. apply keeps_bind; [apply keeps_Now | intros now].
    apply keeps_at_PutItem. cbn [Key]. intros <-. apply Hk, in_or_app. right. by left.
Qed.

End Frame.

(** X4: whatever the context and the client do, [Store] changes the table
    only at the key and at its proper prefixes: every other key holds after
    it what it held before. *)
Theorem Store_frame ctx key value w k :
  ~ In k (storeKeys key) ->
  table (snd (Store ctx key value w)) !! k = table w !! k.
Proof. intros Hk. by apply (keeps_at_Store k (table w !! k) ctx key value Hk w). Qed.

Lemma Store_frame_witness :
  table (snd (Store Background "site/chain" [Byte.x2d] world2)) !! "site/key"
  = table world2 !! "site/key".
Proof.
  apply (Store_frame Background "site/chain" [Byte.x2d] world2 "site/key").
  vm_compute. intuition discriminate.
Defined.



Lemma keeps_markerAt_PutItem ctx k p modified :
  keeps (markerAt k) (PutItem ctx (Item_Item (marker p modified))).
Proof.
  intros w [m Hm].
  destruct (PutItem_table ctx (marker p modified) w) as [(e & _ & ->) | [_ ->]];
    [by exists m |].
  cbn [marker Key]. destruct (decide (p = k)) as [-> | Hne].
  - exists modified. by rewrite lookup_insert_eq.
  - exists m. by rewrite lookup_insert_ne.
Qed.

Lemma keeps_markerAt_storeMarkers ctx k keyParts idx :
  keeps (markerAt k) (storeMarkers ctx keyParts idx).
Proof.
  induction idx as [| i idx IH]; [apply keeps_ret |]. cbn [storeMarkers].
  apply keeps_bind; [apply keeps_Now | intros now].
  apply keeps_bind; [apply keeps_markerAt_PutItem | done].
Qed.

(** With no fault to come, the loop of [Store] leaves a marker at each of
    its keys. *)
Lemma storeMarkers_puts keyParts idx :
  forall w i, quiet w -> In i idx ->
  markerAt (Join (take (i + 1) keyParts) "/")
    (table (snd (storeMarkers Background keyParts idx w))).
Proof.
  induction idx as [| j idx IH]; intros w i Hq Hi; [done |].
  rewrite storeMarkers_cons by done. destruct Hi as [-> | Hi].
  - apply keeps_markerAt_storeMarkers. cbn [advance table].
    exists (clock w). by rewrite lookup_insert_eq.
  - apply IH; [by apply quiet_advance | done].
Qed.

(** Where [Store] leaves the table when no fault comes. *)
Lemma Store_quiet_table key value w :
  quiet w ->
  exists w1, Store Background key value w = (Ok tt, w1) /\ quiet w1
    /\ (forall p, In p (properPrefixes key) -> markerAt p (table w1))
    /\ exists modified, table w1 !! key = Some (Item_Item (terminal key value modified)).
Proof.
  intros Hq.
  destruct (storeMarkers_quiet (SplitByte key "/")
              (seq 0 (length (SplitByte key "/") - 1)) w Hq) as (w0 & Hm & Hq0 & _).
  rewrite (Store_after_markers key value w w0 Hm Hq0).
  eexists. split; [done |]. split; [by apply quiet_advance |]. cbn [advance table]. split.
  - intros p Hp. assert (Hne : key <> p) by (intros <-; by apply (key_not_properPrefix key)).
    unfold properPrefixes in Hp. apply in_map_iff in Hp as (i & <- & Hi).
    pose proof (storeMarkers_puts (SplitByte key "/") _ w i Hq Hi) as [m Hmk].
    rewrite Hm in Hmk. exists m. by rewrite lookup_insert_ne.
  - exists (clock w0). by rewrite lookup_insert_eq.
Qed.



(** X7: after a [Store] that meets no fault, every proper prefix of the key
    exists, and [Load] and [Stat] of it fail with "invalid attribute value":
    a value stored at a prefix before is no longer to be had. *)
Theorem Store_hides_prefixes key value w p :
  quiet w ->
  In p (properPrefixes key) ->
  exists w1, Store Background key value w = (Ok tt, w1)
    /\ fst (Exists Background p w1) = true
    /\ fst (Load Background p w1) = Err ErrInvalidAttributeValue
    /\ fst (Stat Background p w1) = Err ErrInvalidAttributeValue.
Proof.
  intros Hq Hp. destruct (Store_quiet_table key value w Hq) as (w1 & Hs & Hq1 & Hm & _).
  exists w1. split; [done |]. destruct (Hm p Hp) as [m Hl].
  split; [| split].
  - eapply Exists_found; [by apply quiet_runs | done | apply Item_Item_nonempty].
  - erewrite Load_found; [| by apply quiet_runs | done | apply Item_Item_nonempty].
    unfold marker. by rewrite marker_undecodable.
  - erewrite Stat_found; [| by apply quiet_runs | done | apply Item_Item_nonempty].
    unfold marker. by rewrite marker_undecodable.
Qed.

Lemma Store_hides_prefixes_witness :
  exists w1, Store Background "site/cert/old" [Byte.x2d] world2 = (Ok tt, w1)
    /\ fst (Exists Background "site/cert" w1) = true
    /\ fst (Load Background "site/cert" w1) = Err ErrInvalidAttributeValue
    /\ fst (Stat Background "site/cert" w1) = Err ErrInvalidAttributeValue.
Proof.
  apply (Store_hides_prefixes "site/cert/old" [Byte.x2d] world2 "site/cert").
  - reflexivity.
  - vm_compute. auto.
Defined.

(** ** The folders [Store] keeps *)

Lemma prefixClosed_insert k item t :
  prefixClosed t ->
  (forall p, HasPrefix k (p ++ "/") = true -> is_Some (t !! p)) ->
  prefixClosed (<[ k := item ]> t).
Proof.
  intros Ht Hk k' p Hk' Hp.
  assert (Hp' : is_Some (t !! p)).
  { destruct (decide (k = k')) as [<- | Hne]; [by apply Hk |].
    rewrite lookup_insert_ne in Hk' by done. by eapply Ht. }
  destruct (decide (k = p)) as [<- | Hne]; [by rewrite lookup_insert_eq |].
  by rewrite lookup_insert_ne.
Qed.

(** The loop of [Store], from index [i] on: the table stays closed, and when
    the loop comes to its end the markers below [i + n] are all there. *)
Lemma storeMarkers_prefixClosed ctx keyParts n :
  Forall (fun f => noByte "/" f = true) keyParts ->
  forall i w,
  prefixClosed (table w) ->
  (forall j, (j < i)%nat -> is_Some (table w !! Join (take (j + 1) keyParts) "/")) ->
  prefixClosed (table (snd (storeMarkers ctx keyParts (seq i n) w)))
  /\ (forall a, fst (storeMarkers ctx keyParts (seq i n) w) = Ok a ->
      forall j, (j < i + n)%nat ->
      is_Some (table (snd (storeMarkers ctx keyParts (seq i n) w))
                 !! Join (take (j + 1) keyParts) "/")).
Proof.
  intros Hparts. induction n as [| n IH]; intros i w Hc Hbelow.
  - cbn [seq storeMarkers ret fst snd]. split; [done |]. intros _ _ j Hj. apply Hbelow. lia.
  - cbn [seq storeMarkers]. unfold bind at 1 3 5. cbn [Now]. unfold bind at 1 2 3.
    match goal with |- context [PutItem ctx (Item_Item ?it) w] =>
      destruct (PutItem_table ctx it w) as [(e & He & Ht) | [Hok Ht]];
      destruct (PutItem ctx (Item_Item it) w) as [r w1] end;
      cbn [fst snd Key] in *; subst r.
    + cbn [fst snd]. rewrite Ht. split; [done | done].
    + destruct (IH (S i) w1) as [Hc1 Hm1].
      * rewrite Ht. apply prefixClosed_insert; [done |]. intros p Hp.
        apply HasPrefix_Join in Hp as (j & Hj & _ & ->); [| done]. apply Hbelow. lia.
      * intros j Hj. rewrite Ht. destruct (decide (j = i)) as [-> | Hne].
        -- by rewrite lookup_insert_eq.
        -- destruct (Hbelow j ltac:(lia)) as [x Hx].
           destruct (decide (Join (take (i + 1) keyParts) "/"
                             = Join (take (j + 1) keyParts) "/")) as [<- | Hd].
           ++ by rewrite lookup_insert_eq.
           ++ rewrite lookup_insert_ne by done. by exists x.
      * split; [done |]. intros a Ha j Hj. apply (Hm1 a Ha). lia.
Qed.

(** X8: [Store] keeps the table closed under prefixes: if every stored key
    has all the keys it goes through stored as well, the same holds after
    [Store], whatever the context and the client do and whether [Store]
    succeeds or stops at a failing put. *)
Theorem Store_keeps_prefixClosed ctx key value w :
  prefixClosed (table w) ->
  prefixClosed (table (snd (Store ctx key value w))).
Proof.
  intros Hc. unfold Store, bind.
  destruct (storeMarkers_prefixClosed ctx (SplitByte key "/")
              (length (SplitByte key "/") - 1) (SplitByte_noByte key) 0%nat w Hc)
    as [Hc1 Hm1]; [intros j Hj; lia |].
  destruct (storeMarkers ctx (SplitByte key "/") (seq 0 (length (SplitByte key "/") - 1)) w)
    as [[[] | e] w1]; [| done].
  cbn [fst snd Now] in *.
  match goal with |- context [PutItem ctx (Item_Item ?it) w1] =>
    destruct (PutItem_table ctx it w1) as [(e & _ & ->) | [_ ->]] end; [done |].
  cbn [Key]. apply prefixClosed_insert; [done |]. intros p Hp.
  rewrite <- (Join_SplitByte key), <- (firstn_all (SplitByte key "/")) in Hp.
  apply HasPrefix_Join in Hp as (j & _ & Hj & ->); [| apply SplitByte_noByte].
  apply (Hm1 tt eq_refl). lia.
Qed.

Lemma Store_keeps_prefixClosed_witness :
  prefixClosed (table (snd (Store Background "site/old/cert" [Byte.x2d] world2))).
Proof.
  apply (Store_keeps_prefixClosed Background "site/old/cert" [Byte.x2d] world2).
  unfold world2.
  apply (Store_keeps_prefixClosed Background "site/key" [Byte.x6b]).
  apply (Store_keeps_prefixClosed Background "site/cert" [Byte.x63] world0).
  intros k p [x Hx]. cbn [world0 table] in Hx. by rewrite lookup_empty in Hx.
Defined.

(** ** What reading and deleting do to the table *)

(** X9: [Load], [Stat], [List] and [Exists] never change the table,
    whatever they return. *)
Theorem reads_keep_table ctx key recursive w :
  table (snd (Load ctx key w)) = table w
  /\ table (snd (Stat ctx key w)) = table w
  /\ table (snd (List ctx key recursive w)) = table w
  /\ table (snd (Exists ctx key w)) = table w.
Proof.
  assert (Hget : forall k, keeps (fun t => t = table w) (GetItem ctx k))
    by (intros k; by apply keeps_request).
  repeat split.
  - apply (fun H => keeps_bind (fun t => t = table w) (GetItem ctx key) _ (Hget key) H w);
      [| done].
    intros output. destruct (size output =? 0)%nat; [apply keeps_fail |].
    destruct (Item_Load zeroItem output) as [i [e |]]; [apply keeps_fail | apply keeps_ret].
  - apply (fun H => keeps_bind (fun t => t = table w) (GetItem ctx key) _ (Hget key) H w);
      [| done].
    intros output. destruct (size output =? 0)%nat; [apply keeps_fail |].
    destruct (Item_Load zeroItem output) as [i [e |]]; [apply keeps_fail | apply keeps_ret].
  - apply (fun H => keeps_bind (fun t => t = table w) (Scan ctx (key ++ "/")) _
                      (keeps_Scan _ ctx _) H w); [| done].
    intros items. destruct (length items =? 0)%nat; [apply keeps_fail | by intros w'].
  - unfold Exists. specialize (Hget key w eq_refl).
    by destruct (GetItem ctx key w) as [[output | e] w'].
Qed.

Lemma subseteq_delete_trans (k : string) (t t0 : gmap string AttrMap) :
  t ⊆ t0 -> delete k t ⊆ t0.
Proof. intros Ht. etrans; [apply delete_subseteq | done]. Qed.

Section Below.

Variable t0 : gmap string AttrMap.

Lemma keeps_below_DeleteItem ctx k : keeps (fun t => t ⊆ t0) (DeleteItem ctx k).
Proof. apply keeps_request. intros t Ht. by apply subseteq_delete_trans. Qed.

Lemma keeps_below_deleteItems ctx items : keeps (fun t => t ⊆ t0) (deleteItems ctx items).
Proof.
  induction items as [| i items IH]; [apply keeps_ret |]. cbn [deleteItems].
  apply keeps_bind; [| done].
  destruct (keyOf i); [apply keeps_below_DeleteItem | by apply keeps_request].
Qed.

Lemma keeps_below_Delete ctx key : keeps (fun t => t ⊆ t0) (Delete ctx key).
Proof.
  unfold Delete. apply keeps_bind; [apply keeps_below_DeleteItem | intros output].
  destruct (size output =? 0)%nat; [apply keeps_ret |].
  destruct (Item_Load zeroItem output) as [item [e |]]; [apply keeps_fail |].
  destruct (negb (IsTerminal item)); [| apply keeps_ret].
  apply keeps_bind; [apply keeps_Scan | intros items].
  destruct (length items =? 0)%nat; [apply keeps_fail | apply keeps_below_deleteItems].
Qed.

End Below.

(** X10: [Delete] never adds to the table nor changes a record: whatever
    the context and the client do, and whether it sweeps or not, every
    record the table holds after it was there before. *)
Theorem Delete_only_removes ctx key w :
  table (snd (Delete ctx key w)) ⊆ table w.
Proof. by apply (keeps_below_Delete (table w) ctx key w). Qed.

(** [Delete] of a key whose record decodes as terminal. *)
Lemma Delete_terminal ctx key item i w :
  runs ctx w -> table w !! key = Some item -> (size item =? 0)%nat = false ->
  Item_Load zeroItem item = (i, None) -> IsTerminal i = true ->
  Delete ctx key w = (Ok tt, advance w (EvDeleteItem key) (delete key (table w))).
Proof.
  intros Hr Hk Hs Hd Ht. unfold Delete, bind. rewrite DeleteItem_runs by done.
  rewrite Hk. unfold default, id. cbn beta iota. by rewrite Hs, Hd, Ht.
Qed.

(** X11: [Delete] of a key whose record decodes and is terminal succeeds
    with one request: it removes that record and leaves every other record
    where it is, those under the key included. *)
Theorem Delete_file ctx key item i w :
  runs ctx w ->
  table w !! key = Some item ->
  Item_Load zeroItem item = (i, None) ->
  IsTerminal i = true ->
  Delete ctx key w = (Ok tt, advance w (EvDeleteItem key) (delete key (table w)))
  /\ table (snd (Delete ctx key w)) !! key = None
  /\ forall k, k <> key -> table (snd (Delete ctx key w)) !! k = table w !! k.
Proof.
  intros Hr Hk Hd Ht.
  assert (Hs : (size item =? 0)%nat = false).
  { apply Nat.eqb_neq. intros Hz. apply map_size_empty_iff in Hz. subst item.
    unfold Item_Load in Hd. by rewrite lookup_empty in Hd. }
  rewrite (Delete_terminal ctx key item i w Hr Hk Hs Hd Ht). cbn [snd advance table].
  split; [done |]. split; [apply lookup_delete_eq |].
  intros k Hne. by rewrite lookup_delete_ne.
Qed.

Lemma Delete_file_witness :
  Delete Background "site/cert" world2
  = (Ok tt, advance world2 (EvDeleteItem "site/cert") (delete "site/cert" (table world2)))
  /\ table (snd (Delete Background "site/cert" world2)) !! "site/cert" = None
  /\ forall k, k <> "site/cert" ->
       table (snd (Delete Background "site/cert" world2)) !! k = table world2 !! k.
Proof.
  eapply (Delete_file Background "site/cert" _ _ world2).
  - split; reflexivity.
  - vm_compute. reflexivity.
  - vm_compute. reflexivity.
  - reflexivity.
Defined.

Lemma Load_absent ctx key w :
  runs ctx w -> table w !! key = None -> fst (Load ctx key w) = Err ErrNotExist.
Proof. intros Hr Hk. unfold Load, bind. rewrite GetItem_runs by done. by rewrite Hk. Qed.

Lemma Stat_absent ctx key w :
  runs ctx w -> table w !! key = None -> fst (Stat ctx key w) = Err ErrNotExist.
Proof. intros Hr Hk. unfold Stat, bind. rewrite GetItem_runs by done. by rewrite Hk. Qed.

Lemma Exists_absent ctx key w : table w !! key = None -> fst (Exists ctx key w) = false.
Proof.
  intros Hk. unfold Exists, GetItem, request.
  destruct (ctxDone ctx (clock w)); [done |]. destruct (nextFault w); [done |].
  by rewrite Hk.
Qed.

(** X12: a payload that is not empty, stored and then deleted with no
    fault: [Delete] succeeds, and afterwards [Load] and [Stat] of the key
    fail with the not-found condition and [Exists] is false. *)
Theorem Store_then_Delete key value w t' :
  quiet w ->
  value <> [] ->
  Z.of_nat (length value) <= maxInt64 ->
  IsZero (clock w + Z.of_nat (length (SplitByte key "/") - 1) * latency w) = false ->
  ParseRFC3339
    (FormatRFC3339 (clock w + Z.of_nat (length (SplitByte key "/") - 1) * latency w))
    = Some t' ->
  exists w1 w2, Store Background key value w = (Ok tt, w1)
    /\ Delete Background key w1 = (Ok tt, w2)
    /\ fst (Load Background key w2) = Err ErrNotExist
    /\ fst (Stat Background key w2) = Err ErrNotExist
    /\ fst (Exists Background key w2) = false.
Proof.
  intros Hq Hv Hl Hz Hp.
  destruct (Store_quiet key value w Hq) as (w0 & Hq0 & Hc & ->).
  set (w1 := advance w0 (EvPutItem key) _).
  assert (Hq1 : quiet w1) by by apply quiet_advance.
  exists w1, (advance w1 (EvDeleteItem key) (delete key (table w1))).
  split; [done |]. split.
  - pose proof (Item_Load_Item_Item_dense
                  {| Key := key; Contents := value; Modified := clock w0;
                     Size := Z.of_nat (length value); IsTerminal := true |} t') as Hd.
    cbn [Contents Modified Size IsTerminal] in Hd. rewrite Hc in Hd.
    specialize (Hd Hv Hz Hp). rewrite <- Hc in Hd.
    eapply Delete_terminal;
      [by apply quiet_runs | apply lookup_insert_eq | apply Item_Item_nonempty
      | apply Hd; [destruct value; [done |]; cbn [length] in *; lia | done] | done].
  - split; [| split].
    + apply Load_absent; [by apply quiet_runs, quiet_advance | apply lookup_delete_eq].
    + apply Stat_absent; [by apply quiet_runs, quiet_advance | apply lookup_delete_eq].
    + apply Exists_absent. apply lookup_delete_eq.
Qed.

Lemma Store_then_Delete_witness :
  exists w1 w2,
    Store Background "example.com/site.crt" [Byte.x2d; Byte.x2d] world0 = (Ok tt, w1)
    /\ Delete Background "example.com/site.crt" w1 = (Ok tt, w2)
    /\ fst (Load Background "example.com/site.crt" w2) = Err ErrNotExist
    /\ fst (Stat Background "example.com/site.crt" w2) = Err ErrNotExist
    /\ fst (Exists Background "example.com/site.crt" w2) = false.
Proof.
  apply (Store_then_Delete "example.com/site.crt" [Byte.x2d; Byte.x2d] world0 (clock world0)).
  - reflexivity.
  - discriminate.
  - by vm_compute.
  - reflexivity.
  - vm_compute. reflexivity.
Defined.

(** A record that the encoder wrote and the decoder reads is terminal: the
    encoder writes the flag only when it is set. *)
Lemma Item_Load_Item_Item_terminal r i :
  Item_Load zeroItem (Item_Item r) = (i, None) -> IsTerminal i = true.
Proof.
  unfold Item_Load.
  rewrite Item_Item_Key, Item_Item_Contents, Item_Item_Modified, Item_Item_Size,
    Item_Item_IsTerminal.
  repeat case_match; try done; intros [= <-]; by simplify_eq.
Qed.

Section Encoded.

Lemma keeps_allEncoded_PutItem ctx i : keeps allEncoded (PutItem ctx (Item_Item i)).
Proof.
  intros w Hw. destruct (PutItem_table ctx i w) as [(e & _ & ->) | [_ ->]]; [done |].
  intros k item Hl. destruct (decide (Key i = k)) as [<- | Hne].
  - rewrite lookup_insert_eq in Hl. injection Hl as <-. by exists i.
  - rewrite lookup_insert_ne in Hl by done. by eapply Hw.
Qed.

Lemma keeps_allEncoded_Store ctx key value : keeps allEncoded (Store ctx key value).
Proof.
  unfold Store. apply keeps_bind.
  - induction (seq 0 (length (SplitByte key "/") - 1)) as [| i idx IH];
      [apply keeps_ret |]. cbn [storeMarkers].
    apply keeps_bind; [apply keeps_Now | intros now].
    apply keeps_bind; [apply keeps_allEncoded_PutItem | done].
  - intros _. apply keeps_bind; [apply keeps_Now | intros now].
    apply keeps_allEncoded_PutItem.
Qed.

Lemma allEncoded_subseteq (t t0 : gmap string AttrMap) :
  t ⊆ t0 -> allEncoded t0 -> allEncoded t.
Proof. intros Hs H0 k item Hl. eapply H0. by eapply lookup_weaken. Qed.

Lemma runOps_allEncoded ops :
  forall w, allEncoded (table w) -> allEncoded (table (runOps ops w)).
Proof.
  induction ops as [| op ops IH]; intros w Hw; [done |].
  cbn [runOps fold_left]. apply IH. destruct op as [ctx key value | ctx key]; cbn [runOp].
  - by apply keeps_allEncoded_Store.
  - eapply allEncoded_subseteq; [| done]. by apply (keeps_below_Delete (table w) ctx key w).
Qed.

End Encoded.

(** X13: in a table that calls of [Store] and [Delete] alone have touched
    since it was empty, [Delete] issues at most one request, the delete of
    the key itself: no stored record decodes as a directory, so the scan
    and the sweep of the keys under it never run. *)
Theorem Delete_never_sweeps ops ctx key w0 :
  table w0 = ∅ ->
  trace (snd (Delete ctx key (runOps ops w0))) = trace (runOps ops w0)
  \/ trace (snd (Delete ctx key (runOps ops w0)))
     = (trace (runOps ops w0) ++ [(clock (runOps ops w0), EvDeleteItem key)])%list.
Proof.
  intros Hempty.
  assert (Henc : allEncoded (table (runOps ops w0))).
  { apply runOps_allEncoded. rewrite Hempty. intros k item Hl. by rewrite lookup_empty in Hl. }
  generalize dependent (runOps ops w0). intros w Henc.
  unfold Delete, bind, DeleteItem, request.
  destruct (ctxDone ctx (clock w)); [by left |]. right.
  destruct (nextFault w); [done |].
  destruct (table w !! key) as [item |] eqn:Hk; cbn [default]; unfold id;
    [| by rewrite map_size_empty].
  destruct (size item =? 0)%nat; [done |].
  destruct (Henc key item Hk) as [r ->].
  destruct (Item_Load zeroItem (Item_Item r)) as [i [e |]] eqn:Hd; [done |].
  by rewrite (Item_Load_Item_Item_terminal r i Hd).
Qed.

Lemma Delete_never_sweeps_witness :
  trace (snd (Delete Background "a/b" (runOps history0 world0)))
  = trace (runOps history0 world0)
  \/ trace (snd (Delete Background "a/b" (runOps history0 world0)))
     = (trace (runOps history0 world0)
        ++ [(clock (runOps history0 world0), EvDeleteItem "a/b")])%list.
Proof. apply (Delete_never_sweeps history0 Background "a/b" world0). reflexivity. Defined.

(** ** What [List] returns *)

Lemma Item_Load_keyOf i0 item i :
  Item_Load i0 item = (i, None) -> keyOf item = Some (Key i).
Proof.
  unfold Item_Load, keyOf. repeat case_match; try done; by intros [= <-].
Qed.

Lemma listItems_decoded path recursive items :
  Forall decodes items ->
  forall keys,
  listItems path recursive items keys
  = Ok (keys ++ List.filter (listed path recursive) (List.map decodedKey items))%list.
Proof.
  induction 1 as [| item items Hd Hrest IH]; intros keys.
  - cbn. by rewrite app_nil_r.
  - cbn [listItems List.map List.filter]. unfold decodes in Hd.
    destruct (Item_Load zeroItem item) as [i o] eqn:Hl. cbn [snd] in Hd. subst o.
    assert (Hk : decodedKey item = Key i) by (unfold decodedKey; by rewrite Hl).
    rewrite Hk. unfold listed at 1.
    destruct recursive; cbn [negb andb orb].
    + rewrite IH. by rewrite <- app_assoc.
    + destruct (Contains (TrimPrefix (Key i) (path ++ "/")) "/"); cbn [negb].
      * apply IH.
      * rewrite IH. by rewrite <- app_assoc.
Qed.

(** X14: when the scan finds items and each of them decodes, [List]
    succeeds and returns their keys in the order of the scan: all of them
    when [recursive] is set, and otherwise only those with no slash after
    the path and its slash; the deeper ones are dropped, not rolled up. *)
Theorem List_of_decodable ctx path recursive w :
  runs ctx w ->
  scanned (path ++ "/") (table w) <> [] ->
  Forall decodes (scanned (path ++ "/") (table w)) ->
  fst (List ctx path recursive w)
  = Ok (List.filter (listed path recursive)
          (List.map decodedKey (scanned (path ++ "/") (table w)))).
Proof.
  intros Hr Hne Hd. unfold List, bind. rewrite Scan_runs by done.
  fold (scanned (path ++ "/") (table w)).
  destruct (scanned (path ++ "/") (table w)) as [| i items] eqn:Hs; [done |].
  cbn [length Nat.eqb fst]. by rewrite listItems_decoded.
Qed.

Lemma List_of_decodable_witness :
  fst (List Background "site" false world2)
  = Ok (List.filter (listed "site" false)
          (List.map decodedKey (scanned ("site" ++ "/") (table world2)))).
Proof.
  apply (List_of_decodable Background "site" false world2).
  - split; reflexivity.
  - intros H. apply (f_equal length) in H. vm_compute in H. discriminate.
  - apply List.Forall_forall. intros item Hin.
    assert (Hall : forallb (fun it => match snd (Item_Load zeroItem it) with
                                      | None => true
                                      | Some _ => false
                                      end)
                     (scanned ("site" ++ "/") (table world2)) = true)
      by (vm_compute; reflexivity).
    rewrite forallb_forall in Hall. specialize (Hall item Hin). unfold decodes.
    by destruct (snd (Item_Load zeroItem item)).
Defined.

Lemma listItems_prefixed path recursive prefix items :
  Forall (fun item => beginsWith prefix item = true) items ->
  forall keys ks,
  Forall (fun k => HasPrefix k prefix = true) keys ->
  listItems path recursive items keys = Ok ks ->
  Forall (fun k => HasPrefix k prefix = true) ks.
Proof.
  induction 1 as [| item items Hb Hrest IH]; intros keys ks Hkeys; cbn [listItems].
  - by intros [= <-].
  - destruct (Item_Load zeroItem item) as [i [e |]] eqn:Hd; [done |].
    assert (Hi : HasPrefix (Key i) prefix = true).
    { unfold beginsWith in Hb. by rewrite (Item_Load_keyOf _ _ _ Hd) in Hb. }
    destruct (negb recursive && Contains (TrimPrefix (Key i) (path ++ "/")) "/").
    + by apply IH.
    + apply IH. apply Forall_app. split; [done | by constructor].
Qed.

(** X15: every key [List] returns begins with the path and a slash: the
    path itself is never among them, nor is a key that only shares the
    first bytes of the path. *)
Theorem List_keys_under_path ctx path recursive w keys :
  fst (List ctx path recursive w) = Ok keys ->
  Forall (fun k => HasPrefix k (path ++ "/") = true) keys.
Proof.
  unfold List, bind, Scan, request.
  destruct (ctxDone ctx (clock w)); [done |]. destruct (nextFault w); [done |].
  destruct (length _ =? 0)%nat; [done |]. cbn [fst].
  apply listItems_prefixed; [| constructor].
  apply List.Forall_forall. intros item Hin. by apply filter_In in Hin as [_ ?].
Qed.

Lemma List_keys_under_path_witness :
  Forall (fun k => HasPrefix k ("site" ++ "/") = true) ["site/key"; "site/cert"].
Proof.
  apply (List_keys_under_path Background "site" true world2). vm_compute. reflexivity.
Defined.

(** ** Taking, holding and releasing the lock *)

Lemma PutItemIfAbsent_free ctx name now w :
  runs ctx w -> table w !! lockKey name = None ->
  PutItemIfAbsent ctx (lockItem name now) w
  = (Ok tt, advance w (EvPutItemIfAbsent (lockKey name))
              (<[ lockKey name := lockItem name now ]> (table w))).
Proof.
  intros Hr Hk. unfold PutItemIfAbsent. rewrite keyOf_lockItem.
  rewrite request_runs by done. by rewrite Hk.
Qed.

(** X16: on a name that nobody holds, with no fault to come, [Lock] returns
    at its first put, without sleeping, and leaves the lock record with the
    time of the call; [Unlock] then removes it, and the table is as it was
    before the [Lock]. *)
Theorem Lock_then_Unlock n name w :
  quiet w ->
  table w !! lockKey name = None ->
  exists w1 w2,
    Lock (S n) Background name w = (Some None, w1)
    /\ table w1 = <[ lockKey name := lockItem name (clock w) ]> (table w)
    /\ trace w1 = (trace w ++ [(clock w, EvPutItemIfAbsent (lockKey name))])%list
    /\ Unlock Background name w1 = (Ok tt, w2)
    /\ table w2 = table w.
Proof.
  intros Hq Hk.
  exists (advance w (EvPutItemIfAbsent (lockKey name))
            (<[ lockKey name := lockItem name (clock w) ]> (table w))).
  eexists. split; [| split; [done | split; [done | split]]].
  - cbn [Lock]. unfold lockTurn.
    rewrite PutItemIfAbsent_free; [done | by apply quiet_runs | done].
  - unfold Unlock, deleteLock, bind.
    rewrite DeleteItem_runs by by apply quiet_runs, quiet_advance. cbn [ret]. reflexivity.
  - cbn [advance table]. rewrite delete_insert_eq. by apply delete_id.
Qed.

Lemma Lock_then_Unlock_witness :
  exists w1 w2,
    Lock 1 Background "renew" world2 = (Some None, w1)
    /\ table w1 = <[ lockKey "renew" := lockItem "renew" (clock world2) ]> (table world2)
    /\ trace w1
       = (trace world2 ++ [(clock world2, EvPutItemIfAbsent (lockKey "renew"))])%list
    /\ Unlock Background "renew" w1 = (Ok tt, w2)
    /\ table w2 = table world2.
Proof.
  apply (Lock_then_Unlock 0 "renew" world2).
  - reflexivity.
  - vm_compute. reflexivity.
Defined.








(** X23: on a backend that fills the exception of a failed condition only
    when asked, [Lock] never waits and never takes a lock over: whatever the
    table, the context and the faults of the client, it returns within its
    first turn, after at most one request, the put; it issues no delete and
    no sleep. *)
Theorem Lock_never_waits n ctx name w :
  itemOnFailure w = false ->
  Lock (S n) ctx name w = Lock 1 ctx name w
  /\ fst (Lock 1 ctx name w) <> None
  /\ (trace (snd (Lock 1 ctx name w)) = trace w
      \/ trace (snd (Lock 1 ctx name w))
         = (trace w ++ [(clock w, EvPutItemIfAbsent (lockKey name))])%list).
Proof.
  intros Hflag. cbn [Lock]. unfold lockTurn, PutItemIfAbsent.
  rewrite keyOf_lockItem. unfold request.
  destruct (ctxDone ctx (clock w)); [by auto |].
  destruct (nextFault w); [by auto |].
  destruct (table w !! lockKey name); [| by auto].
  rewrite Hflag, lookup_empty. by auto.
Qed.

Lemma Lock_never_waits_witness :
  Lock 5 Background "renew" (heldWorldUnasked (2 * Minute))
  = Lock 1 Background "renew" (heldWorldUnasked (2 * Minute))
  /\ fst (Lock 1 Background "renew" (heldWorldUnasked (2 * Minute))) <> None
  /\ (trace (snd (Lock 1 Background "renew" (heldWorldUnasked (2 * Minute))))
      = trace (heldWorldUnasked (2 * Minute))
      \/ trace (snd (Lock 1 Background "renew" (heldWorldUnasked (2 * Minute))))
         = (trace (heldWorldUnasked (2 * Minute))
            ++ [(clock (heldWorldUnasked (2 * Minute)),
                 EvPutItemIfAbsent (lockKey "renew"))])%list).
Proof.
  apply (Lock_never_waits 4 Background "renew" (heldWorldUnasked (2 * Minute))).
  reflexivity.
Defined.

Section LockFrame.

Variables (ctx : Context) (name k : string) (v : option AttrMap).
Hypothesis Hk : k <> lockKey name.

Lemma lockTurn_frame w :
  table w !! k = v -> table (snd (lockTurn ctx name w)) !! k = v.
Proof using Hk.
  intros Hw. unfold lockTurn.
  assert (Hput : table (snd (PutItemIfAbsent ctx (lockItem name (clock w)) w)) !! k = v).
  { unfold PutItemIfAbsent. rewrite keyOf_lockItem.
    apply (keeps_request (fun t => t !! k = v)); [| done].
    intros t Ht. destruct (t !! lockKey name); [done |]. cbn [snd].
    by rewrite lookup_insert_ne. }
  destruct (PutItemIfAbsent ctx (lockItem name (clock w)) w) as [[[] | e] w1];
    cbn [snd] in *; [done |].
  destruct e as [| | | | | found | |]; try done.
  destruct (found !! "Locked") as [[str | | | |] |]; try done.
  destruct (ParseRFC3339 str) as [locked |]; [| done].
  destruct (Minute <? Sub (clock w1) locked).
  - assert (Hdel : table (snd (deleteLock ctx name w1)) !! k = v).
    { unfold deleteLock. apply (keeps_bind (fun t => t !! k = v)); [| intros; apply keeps_ret | done].
      apply keeps_request. intros t Ht. cbn [snd]. by rewrite lookup_delete_ne. }
    by destruct (deleteLock ctx name w1) as [[[] | e] w2].
  - done.
Qed.

Lemma Lock_frame_at fuel :
  forall w, table w !! k = v -> table (snd (Lock fuel ctx name w)) !! k = v.
Proof using Hk.
  induction fuel as [| fuel IH]; intros w Hw; [done |]. cbn [Lock].
  pose proof (lockTurn_frame w Hw) as Ht.
  destruct (lockTurn ctx name w) as [[err |] w1]; cbn [snd] in *; [done | by apply IH].
Qed.

End LockFrame.

(** X19: [Lock] and [Unlock] change the table at the lock's own key only,
    however long [Lock] goes round and whatever the context and the client
    do: every other key holds afterwards what it held before. *)
Theorem Lock_Unlock_frame fuel ctx name k w :
  k <> lockKey name ->
  table (snd (Lock fuel ctx name w)) !! k = table w !! k
  /\ table (snd (Unlock ctx name w)) !! k = table w !! k.
Proof.
  intros Hk. split; [by apply Lock_frame_at |].
  unfold Unlock, deleteLock.
  apply (keeps_bind (fun t => t !! k = table w !! k)); [| intros; apply keeps_ret | done].
  apply keeps_request. intros t Ht. cbn [snd]. by rewrite lookup_delete_ne.
Qed.

Lemma Lock_Unlock_frame_witness :
  table (snd (Lock 3 Background "renew" world2)) !! "site/cert" = table world2 !! "site/cert"
  /\ table (snd (Unlock Background "renew" world2)) !! "site/cert"
     = table world2 !! "site/cert".
Proof. apply (Lock_Unlock_frame 3 Background "renew" "site/cert" world2). by vm_compute. Defined.

Lemma PutItemIfAbsent_errors ctx name now w e :
  fst (PutItemIfAbsent ctx (lockItem name now) w) = Err e ->
  e = ErrContext \/ (exists code, e = ErrBackend code)
  \/ exists found, e = ConditionalCheckFailedException found.
Proof.
  unfold PutItemIfAbsent. rewrite keyOf_lockItem. intros He.
  apply request_error in He as [-> | [[code ->] | He]]; [by left | right; left; eauto |].
  right. right. destruct (table w !! lockKey name) as [found |]; [| done].
  injection He as <-. eauto.
Qed.

Lemma deleteLock_errors ctx name w e :
  fst (deleteLock ctx name w) = Err e -> e = ErrContext \/ exists code, e = ErrBackend code.
Proof.
  unfold deleteLock, bind.
  destruct (DeleteItem ctx (lockKey name) w) as [[a | e'] w'] eqn:Hd; [done |].
  cbn [fst]. intros [= ->].
  assert (Hd' : fst (DeleteItem ctx (lockKey name) w) = Err e) by by rewrite Hd.
  apply request_error in Hd' as [-> | [[code ->] | ?]]; [by left | right; eauto | done].
Qed.

Lemma lockTurn_errors ctx name w e :
  fst (lockTurn ctx name w) = Return (Some e) -> lockError e.
Proof.
  unfold lockTurn, lockError.
  pose proof (PutItemIfAbsent_errors ctx name (clock w) w) as Hput.
  destruct (PutItemIfAbsent ctx (lockItem name (clock w)) w) as [[[] | e0] w1]; [done |].
  destruct (Hput e0 eq_refl) as [-> | [[code ->] | [found ->]]].
  - intros [= <-]. by left.
  - intros [= <-]. right. left. eauto.
  - destruct (found !! "Locked") as [[str | | | |] |];
      try (intros [= <-]; by right; right; left).
    destruct (ParseRFC3339 str) as [locked |]; [| intros [= <-]; right; right; right; eauto].
    destruct (Minute <? Sub (clock w1) locked); [| done].
    pose proof (deleteLock_errors ctx name w1) as Hdel.
    destruct (deleteLock ctx name w1) as [[[] | e1] w2]; [done |].
    intros [= <-]. destruct (Hdel e1 eq_refl) as [-> | [code ->]]; [by left | right; left; eauto].
Qed.

(** X20: an error [Lock] returns is the context's, the client's, "invalid
    Locked attribute" or the parse error of the time in the lock record;
    the failed condition itself and the not-found condition never come out
    of [Lock]. *)
Theorem Lock_errors fuel ctx name w e :
  fst (Lock fuel ctx name w) = Some (Some e) -> lockError e.
Proof.
  revert w. induction fuel as [| fuel IH]; intros w; [done |]. cbn [Lock].
  pose proof (lockTurn_errors ctx name w) as Ht.
  destruct (lockTurn ctx name w) as [[err |] w1]; cbn [fst] in *.
  - intros [= ->]. by apply Ht.
  - apply IH.
Qed.

Lemma Lock_errors_witness : lockError ErrContext.
Proof.
  apply (Lock_errors 2 shortContext "renew" (heldWorld (10 * Second)) ErrContext).
  vm_compute. reflexivity.
Defined.

(** ** When the not-found condition comes out *)




(** X22: when their read reaches the table, [Load] and [Stat] fail with
    the not-found condition exactly when the key holds no record; a record
    that does not decode gives another error. *)
Theorem Load_Stat_not_found_iff ctx key w :
  runs ctx w ->
  (fst (Load ctx key w) = Err ErrNotExist <-> default ∅ (table w !! key) = ∅)
  /\ (fst (Stat ctx key w) = Err ErrNotExist <-> default ∅ (table w !! key) = ∅).
Proof.
  intros Hr. unfold Load, Stat, bind. rewrite GetItem_runs by done.
  set (output := default ∅ (table w !! key)).
  destruct (size output =? 0)%nat eqn:Hs.
  - apply Nat.eqb_eq, map_size_empty_iff in Hs. by split.
  - assert (Hne : output <> ∅)
      by (intros He; rewrite He, map_size_empty in Hs; discriminate).
    pose proof (Item_Load_error zeroItem output) as Herr.
    destruct (Item_Load zeroItem output) as [i [e |]]; cbn [fst snd fail ret] in *.
    + specialize (Herr e eq_refl). apply decodeError_not_ErrNotExist in Herr.
      split; (split; [intros [= ->]; done | done]).
    + split; (split; [done | done]).
Qed.

Lemma Load_Stat_not_found_iff_witness :
  (fst (Load Background "site/none" world2) = Err ErrNotExist
   <-> default ∅ (table world2 !! "site/none") = ∅)
  /\ (fst (Stat Background "site/none" world2) = Err ErrNotExist
      <-> default ∅ (table world2 !! "site/none") = ∅).
Proof. apply (Load_Stat_not_found_iff Background "site/none" world2). split; reflexivity. Defined.
